(** * pdf-reader: the text chunking and synthesis-cache pipeline of [server.ts]

    A shallow embedding of the text normalizer ([cleanText]), the chunker
    ([splitIntoChunks]) and the two text-to-speech request handlers of
    [src/server.ts], with the properties the specification states about
    them.

    JavaScript strings are sequences of UTF-16 code units: a string is a
    [list N] of code units, [length] is the JavaScript [.length]. *)

From Stdlib Require Import ZArith NArith List Lia Bool Ascii String.
From stdpp Require Import base tactics option list gmap pretty.
Import ListNotations.

Local Open Scope nat_scope.
Local Open Scope list_scope.

(** ** JavaScript strings *)

Abbreviation jsstring := (list N).

(** A string literal of the source, as code units. *)
Definition str (s : string) : jsstring :=
  map N_of_ascii (list_ascii_of_string s).

Module Char.

Definition space : N := 32.
Definition apostrophe : N := 39.
Definition quote : N := 34.
Definition hyphen : N := 45.
Definition dot : N := 46.
Definition underscore : N := 95.

Definition between (lo hi c : N) : bool := ((lo <=? c) && (c <=? hi))%N.

(** The class [\s] of a JavaScript regular expression, which is also the
    set of code units [String.prototype.trim] strips: WhiteSpace and
    LineTerminator. *)
Definition is_space (c : N) : bool :=
  between 9 13 c || (c =? 32)%N || (c =? 160)%N || (c =? 5760)%N
  || between 8192 8202 c || (c =? 8232)%N || (c =? 8233)%N
  || (c =? 8239)%N || (c =? 8287)%N || (c =? 12288)%N || (c =? 65279)%N.

(** LineTerminator: what [^] and [$] look at under the [m] flag. *)
Definition is_line_terminator (c : N) : bool :=
  (c =? 10)%N || (c =? 13)%N || (c =? 8232)%N || (c =? 8233)%N.

(** The class [\d]. *)
Definition is_digit (c : N) : bool := between 48 57 c.

(** The class [[.!?]] of the sentence boundary. *)
Definition is_sentence_end (c : N) : bool :=
  (c =? 46)%N || (c =? 33)%N || (c =? 63)%N.

(** The class [[\x00-\x08\x0b\x0c\x0e-\x1f\x7f-\x9f]]. *)
Definition is_control (c : N) : bool :=
  between 0 8 c || (c =? 11)%N || (c =? 12)%N || between 14 31 c
  || between 127 159 c.

(** The class [[a-zA-Z0-9]]. *)
Definition is_alnum (c : N) : bool :=
  between 97 122 c || between 65 90 c || between 48 57 c.

End Char.

(** ToBoolean of a string: the empty string is the only falsy one. *)
Definition truthy (s : jsstring) : bool :=
  match s with [] => false | _ :: _ => true end.

(** [String.prototype.trim]: leading and trailing white space removed. *)
Fixpoint trimStart (s : jsstring) : jsstring :=
  match s with
  | [] => []
  | c :: r => if Char.is_space c then trimStart r else s
  end.

Fixpoint trimEnd (s : jsstring) : jsstring :=
  match s with
  | [] => []
  | c :: r =>
      match trimEnd r with
      | [] => if Char.is_space c then [] else [c]
      | r' => c :: r'
      end
  end.

Definition trim (s : jsstring) : jsstring := trimEnd (trimStart s).

(** [Array.prototype.join] with a single space. *)
Fixpoint join_space (l : list jsstring) : jsstring :=
  match l with
  | [] => []
  | [s] => s
  | s :: rest => s ++ Char.space :: join_space rest
  end.

(** ** The chunker *)

(** [text.split(/(?<=[.!?])\s+/)]: a separator is a maximal run of white
    space that directly follows one of [.], [!], [?]; the pieces between
    separators are returned, the run itself is dropped. The scan keeps
    whether it is inside a separator, and otherwise whether the previous
    code unit was a sentence end (the lookbehind). The result starts with
    the piece being read. *)
Inductive scan : Type :=
  | InSeparator
  | InSentence (after_end : bool).

Definition push_char (c : N) (pieces : list jsstring) : list jsstring :=
  match pieces with
  | [] => [[c]]
  | p :: ps => (c :: p) :: ps
  end.

Fixpoint split_from (st : scan) (s : jsstring) : list jsstring :=
  match s with
  | [] => [[]]
  | c :: rest =>
      match st with
      | InSeparator =>
          if Char.is_space c then split_from InSeparator rest
          else push_char c (split_from (InSentence (Char.is_sentence_end c)) rest)
      | InSentence after_end =>
          if after_end && Char.is_space c then [] :: split_from InSeparator rest
          else push_char c (split_from (InSentence (Char.is_sentence_end c)) rest)
      end
  end.

Definition split_sentences (text : jsstring) : list jsstring :=
  split_from (InSentence false) text.

(** The [for] loop of [splitIntoChunks], with its two variables. *)
Fixpoint chunk_loop (maxChars : Z) (sentences : list jsstring)
    (chunks : list jsstring) (current : jsstring) : list jsstring * jsstring :=
  match sentences with
  | [] => (chunks, current)
  | sentence :: rest =>
      if (Z.of_nat (length (current ++ sentence)) <? maxChars)%Z
      then chunk_loop maxChars rest chunks (current ++ sentence ++ [Char.space])
      else chunk_loop maxChars rest
             (if truthy current then chunks ++ [trim current] else chunks)
             (sentence ++ [Char.space])
  end.

(** [maxChars] is an integer here: a fractional bound compares with a
    length like its ceiling does, an infinite one like a bound above every
    length, and the only caller uses the default. *)
Definition splitIntoChunks (text : jsstring) (maxChars : Z) : list jsstring :=
  let sentences := split_sentences text in
  let '(chunks, current) := chunk_loop maxChars sentences [] [] in
  if truthy (trim current) then chunks ++ [trim current] else chunks.

Definition default_maxChars : Z := 10000.

(** ** The normalizer *)

Fixpoint take_while (p : N -> bool) (s : jsstring) : jsstring :=
  match s with
  | [] => []
  | c :: r => if p c then c :: take_while p r else []
  end.

Fixpoint drop_while (p : N -> bool) (s : jsstring) : jsstring :=
  match s with
  | [] => []
  | c :: r => if p c then drop_while p r else s
  end.

(** [.replace(/[\x00-\x08\x0b\x0c\x0e-\x1f\x7f-\x9f]/g, '')] *)
Definition remove_control (s : jsstring) : jsstring :=
  List.filter (fun c => negb (Char.is_control c)) s.

(** The three replacements of one code unit by another: the typographic
    single quotes U+2018 and U+2019 by the apostrophe, the double quotes
    U+201C and U+201D by the ASCII double quote, the dashes U+2013 and
    U+2014 by the hyphen. *)
Definition replace_pair (a b by_ : N) (s : jsstring) : jsstring :=
  map (fun c => if ((c =? a) || (c =? b))%N then by_ else c) s.

(** [.replace(/\u2026/g, '...')] *)
Definition replace_ellipsis (s : jsstring) : jsstring :=
  flat_map (fun c => if (c =? 8230)%N then [Char.dot; Char.dot; Char.dot] else [c]) s.

(** [.replace(/\s+/g, ' ')]: [in_run] says that the previous code unit was
    white space, whose run has been replaced already. *)
Fixpoint collapse_from (in_run : bool) (s : jsstring) : jsstring :=
  match s with
  | [] => []
  | c :: r =>
      if Char.is_space c
      then (if in_run then collapse_from true r else Char.space :: collapse_from true r)
      else c :: collapse_from false r
  end.

Definition collapse_spaces (s : jsstring) : jsstring := collapse_from false s.

(** The greatest index of a line terminator in a run of white space. *)
Fixpoint last_terminator (ws : jsstring) : option nat :=
  match ws with
  | [] => None
  | c :: r =>
      match last_terminator r with
      | Some k => Some (S k)
      | None => if Char.is_line_terminator c then Some 0 else None
      end
  end.

(** A match of [\d+\s*$] (flag [m]) at the head of [s]: its length. The
    digits and the white space are taken greedily; [$] holds at the end of
    the string or before a line terminator, so when a code unit that is not
    white space follows the run, [\s*] gives back code units down to the
    last line terminator of the run. Giving back a digit never helps. *)
Definition digit_line_match (s : jsstring) : option nat :=
  let ds := take_while Char.is_digit s in
  let ws := take_while Char.is_space (drop_while Char.is_digit s) in
  match ds with
  | [] => None
  | _ :: _ =>
      match drop_while Char.is_space (drop_while Char.is_digit s) with
      | [] => Some (length ds + length ws)
      | _ :: _ =>
          match last_terminator ws with
          | Some k => Some (length ds + k)
          | None => None
          end
      end
  end.

(** [^] under the flag [m]: the start of the string or just after a line
    terminator. *)
Definition at_line_start (prev : option N) : bool :=
  match prev with
  | None => true
  | Some c => Char.is_line_terminator c
  end.

(** [.replace(/^\d+\s*$/gm, '')]: left to right, every match is dropped and
    the search resumes where it ended. [skip] counts the code units of the
    current match still to drop, [prev] is the code unit before [s]. *)
Fixpoint remove_digit_lines_from (skip : nat) (prev : option N) (s : jsstring) : jsstring :=
  match s with
  | [] => []
  | c :: r =>
      match skip with
      | S k => remove_digit_lines_from k (Some c) r
      | 0 =>
          if at_line_start prev then
            match digit_line_match s with
            | Some (S n) => remove_digit_lines_from n (Some c) r
            | _ => c :: remove_digit_lines_from 0 (Some c) r
            end
          else c :: remove_digit_lines_from 0 (Some c) r
      end
  end.

Definition remove_digit_lines (s : jsstring) : jsstring :=
  remove_digit_lines_from 0 None s.

Definition cleanText (text : jsstring) : jsstring :=
  if negb (truthy text) then []
  else
    trim
      (remove_digit_lines
         (collapse_spaces
            (replace_ellipsis
               (replace_pair 8211 8212 Char.hyphen
                  (replace_pair 8220 8221 Char.quote
                     (replace_pair 8216 8217 Char.apostrophe
                        (remove_control text))))))).

(** ** Numbers *)

(** The numbers the handlers compute with are results of [parseInt] and
    array lengths: an integer or NaN. *)
Inductive jsnum : Type :=
  | NaN
  | Num (z : Z).

(** [a < b] and [a >= b]: every comparison with NaN is false. *)
Definition num_lt (a b : jsnum) : bool :=
  match a, b with
  | Num x, Num y => (x <? y)%Z
  | _, _ => false
  end.

Definition num_ge (a b : jsnum) : bool :=
  match a, b with
  | Num x, Num y => (y <=? x)%Z
  | _, _ => false
  end.

(** A number inside a template literal: all the digits of the integer
    (from 10^21 on JavaScript writes an exponent instead; the indices and
    lengths written here stay below). *)
Definition Number_toString (n : jsnum) : jsstring :=
  match n with
  | NaN => str "NaN"
  | Num z => str (pretty z)
  end.

(** [array[i]]: [undefined] (here [None]) outside the array and for NaN. *)
Definition array_get {A : Type} (l : list A) (i : jsnum) : option A :=
  match i with
  | NaN => None
  | Num z => if (0 <=? z)%Z then l !! Z.to_nat z else None
  end.

(** The value of a digit in the radix, if it is one. *)
Definition digit_value (radix c : N) : option N :=
  let v :=
    if Char.between 48 57 c then Some (c - 48)%N
    else if Char.between 97 122 c then Some (c - 87)%N
    else if Char.between 65 90 c then Some (c - 55)%N
    else None in
  match v with
  | Some d => if (d <? radix)%N then Some d else None
  | None => None
  end.

(** The longest prefix of digits, read in the radix; [None] if empty. *)
Fixpoint parse_digits (radix : N) (acc : option N) (s : jsstring) : option N :=
  match s with
  | [] => acc
  | c :: r =>
      match digit_value radix c with
      | Some d => parse_digits radix (Some (radix * default 0 acc + d)%N) r
      | None => acc
      end
  end.

(** [Number.MAX_SAFE_INTEGER]: up to it, in absolute value, a double holds
    every integer exactly, and a template literal writes all its digits. *)
Definition MAX_SAFE_INTEGER : Z := 2 ^ 53 - 1.

Definition safe_integer (z : Z) : Prop :=
  (- MAX_SAFE_INTEGER <= z <= MAX_SAFE_INTEGER)%Z.

(** [parseInt(string)] without a radix: leading white space, a sign, the
    prefix [0x] or [0X] for radix 16, then the digits; NaN if there is no
    digit. The result is the exact integer (a double rounds it above
    2^53, which no comparison below depends on). *)
Definition parseInt (input : jsstring) : jsnum :=
  let s := trimStart input in
  let '(negative, s) :=
    match s with
    | c :: r => if (c =? 45)%N then (true, r) else if (c =? 43)%N then (false, r) else (false, s)
    | [] => (false, s)
    end in
  let '(radix, s) :=
    match s with
    | c0 :: x :: r => if ((c0 =? 48) && ((x =? 120) || (x =? 88)))%N then (16%N, r) else (10%N, s)
    | _ => (10%N, s)
    end in
  match parse_digits radix None s with
  | None => NaN
  | Some n => Num (if negative : bool then - Z.of_N n else Z.of_N n)
  end.

(** ** The server state *)

Record PDFData : Type := {
  id : jsstring;
  filename : jsstring;
  totalPages : N;
  totalChars : nat;
  chunks : list jsstring;
}.

Inductive TTSStatus : Type := pending | processing | completed | error.

Record TTSProgress : Type := {
  status : TTSStatus;
  progress : N;
  message : jsstring;
}.

(** The outcome of [execFileAsync]: the promise resolves, or it rejects
    (exit code, signal, or the 120 s timeout) with an error message. *)
Inductive ExecOutcome : Type :=
  | Resolved
  | Rejected (error_message : jsstring).

(** What the server does not implement itself: the audio directory, the
    [edge-tts] executable and the [music-metadata] reader. A run of the
    executable sees its arguments and the files, and leaves the files in
    some state; the first argument numbers the runs, so that two runs
    with the same arguments need not behave alike. *)
Class Collaborators : Type := {
  Duration : Type;
  AUDIO_DIR : jsstring;
  edge_tts : nat -> list jsstring -> gmap jsstring jsstring -> ExecOutcome * gmap jsstring jsstring;
  metadata_duration : gmap jsstring jsstring -> jsstring -> Duration;
}.

(** The files (path to content), the progress table and the log of the
    runs of the executable. *)
Record World : Type := {
  disk : gmap jsstring jsstring;
  ttsProgress : gmap jsstring TTSProgress;
  invocations : list (list jsstring);
}.

Definition existsSync (path : jsstring) (w : World) : bool :=
  match disk w !! path with
  | Some _ => true
  | None => false
  end.

Definition writeFileSync (path content : jsstring) (w : World) : World :=
  {| disk := <[path := content]> (disk w);
     ttsProgress := ttsProgress w;
     invocations := invocations w |}.

Definition unlinkSync (path : jsstring) (w : World) : World :=
  {| disk := delete path (disk w);
     ttsProgress := ttsProgress w;
     invocations := invocations w |}.

Definition set_progress (key : jsstring) (p : TTSProgress) (w : World) : World :=
  {| disk := disk w;
     ttsProgress := <[key := p]> (ttsProgress w);
     invocations := invocations w |}.

(** [path.join(dir, name)] for a file name without separators. *)
Definition path_join (dir name : jsstring) : jsstring :=
  dir ++ str "/" ++ name.

(** The answers of the handlers: [res.status(code).json({error})] and the
    three success bodies (status 200). *)
Inductive Response `{Collaborators} : Type :=
  | ErrorResponse (code : N) (error_message : jsstring)
  | ChunkResponse (index : jsnum) (text : option jsstring) (totalChunks : nat)
  | TTSResponse (audioUrl : jsstring) (duration : Duration) (cached : bool)
  | CustomResponse (audioUrl : jsstring) (duration : Duration).

(** The message of the TypeError that reading [.length] of [undefined]
    throws (V8's wording). *)
Definition undefined_length_message : jsstring :=
  str "Cannot read properties of undefined (reading 'length')".

(** The identifiers of [VOICES]. *)
Definition VOICES : list jsstring :=
  [str "en-US-AriaNeural"; str "en-US-GuyNeural"; str "en-US-JennyNeural";
   str "en-GB-SoniaNeural"; str "en-GB-RyanNeural"; str "en-IN-NeerjaNeural";
   str "en-IN-PrabhatNeural"; str "en-AU-NatashaNeural"].

(** What the upload handler stores for the text [pdf-parse] extracted. *)
Definition chunks_of_extracted (text : jsstring) : list jsstring :=
  let fullText := cleanText text in
  splitIntoChunks fullText default_maxChars.

Definition default_voice : jsstring := str "en-US-AriaNeural".
Definition default_rate : jsstring := str "+0%".

Section Handlers.
Context `{Collaborators}.

(** [execFileAsync(EDGE_TTS_PATH, args, { timeout: 120000 })] *)
Definition execFileAsync (args : list jsstring) (w : World) : ExecOutcome * World :=
  let '(outcome, files) := edge_tts (length (invocations w)) args (disk w) in
  (outcome,
   {| disk := files;
      ttsProgress := ttsProgress w;
      invocations := invocations w ++ [args] |}).

Definition tempFile_of (now : N) : jsstring :=
  str "/tmp/tts-" ++ str (pretty now) ++ str ".txt".

Definition tts_args (tempFile outputPath voice rate : jsstring) : list jsstring :=
  [str "--file"; tempFile; str "--write-media"; outputPath; str "--voice"; voice]
  ++ (if truthy rate && negb (bool_decide (rate = default_rate))
      then [str "--rate"; rate] else []).

(** [generateTTS]; [now] is what [Date.now()] returns. The [finally]
    block runs on both outcomes. *)
Definition generateTTS (now : N) (text outputPath voice rate : jsstring)
    (w : World) : ExecOutcome * World :=
  let tempFile := tempFile_of now in
  let w := writeFileSync tempFile text w in
  let '(outcome, w) := execFileAsync (tts_args tempFile outputPath voice rate) w in
  let w := if existsSync tempFile w then unlinkSync tempFile w else w in
  (outcome, w).

Definition getAudioDuration (filePath : jsstring) (w : World) : Duration :=
  metadata_duration (disk w) filePath.

(** [replace(/[^a-zA-Z0-9]/g, '')] on the voice. *)
Definition sanitize_voice (voice : jsstring) : jsstring :=
  List.filter Char.is_alnum voice.

Definition audioFilename_of (pdfId : jsstring) (index : jsnum) (voice : jsstring) : jsstring :=
  pdfId ++ str "_chunk_" ++ Number_toString index ++ str "_"
  ++ sanitize_voice voice ++ str ".mp3".

Definition audioPath_of (pdfId : jsstring) (index : jsnum) (voice : jsstring) : jsstring :=
  path_join AUDIO_DIR (audioFilename_of pdfId index voice).

Definition audioUrl_of (audioFilename : jsstring) : jsstring :=
  str "/audio/" ++ audioFilename.

(** GET [/api/pdf/:pdfId/chunk/:chunkIndex] *)
Definition get_chunk (pdfStore : gmap jsstring PDFData)
    (pdfId chunkIndex : jsstring) : Response :=
  match pdfStore !! pdfId with
  | None => ErrorResponse 404 (str "PDF not found")
  | Some pdf =>
      let index := parseInt chunkIndex in
      if num_lt index (Num 0) || num_ge index (Num (Z.of_nat (length (chunks pdf))))
      then ErrorResponse 400 (str "Invalid chunk index")
      else ChunkResponse index (array_get (chunks pdf) index) (length (chunks pdf))
  end.

(** POST [/api/tts]. [chunkIndex] is the string [parseInt] converts its
    argument to; [voice] and [rate] are [None] when the body leaves them
    out. An exception inside the [try] block ends in the status 500. *)
Definition post_tts (pdfStore : gmap jsstring PDFData) (now : N)
    (pdfId chunkIndex : jsstring) (voice_opt rate_opt : option jsstring)
    (w : World) : Response * World :=
  let voice := default default_voice voice_opt in
  let rate := default default_rate rate_opt in
  match pdfStore !! pdfId with
  | None => (ErrorResponse 404 (str "PDF not found"), w)
  | Some pdf =>
      let index := parseInt chunkIndex in
      if num_lt index (Num 0) || num_ge index (Num (Z.of_nat (length (chunks pdf))))
      then (ErrorResponse 400 (str "Invalid chunk index"), w)
      else
        match array_get (chunks pdf) index with
        | None => (ErrorResponse 500 undefined_length_message, w)
        | Some text =>
            if length text <? 10
            then (ErrorResponse 400 (str "Chunk too short"), w)
            else
              let audioFilename := audioFilename_of pdfId index voice in
              let audioPath := path_join AUDIO_DIR audioFilename in
              if existsSync audioPath w
              then (TTSResponse (audioUrl_of audioFilename)
                      (getAudioDuration audioPath w) true, w)
              else
                let progressKey := pdfId ++ str "_" ++ Number_toString index in
                let w := set_progress progressKey
                           {| status := processing; progress := 50;
                              message := str "Generating audio..." |} w in
                match generateTTS now text audioPath voice rate w with
                | (Rejected msg, w) => (ErrorResponse 500 msg, w)
                | (Resolved, w) =>
                    let duration := getAudioDuration audioPath w in
                    let w := set_progress progressKey
                               {| status := completed; progress := 100;
                                  message := str "Done" |} w in
                    (TTSResponse (audioUrl_of audioFilename) duration false, w)
                end
        end
  end.

(** POST [/api/tts/custom]; [name_now] and [now] are the two readings of
    the clock, for the file name and inside [generateTTS]. *)
Definition post_tts_custom (name_now now : N)
    (text_opt voice_opt rate_opt : option jsstring)
    (w : World) : Response * World :=
  let voice := default default_voice voice_opt in
  let rate := default default_rate rate_opt in
  match text_opt with
  | None => (ErrorResponse 400 (str "Text required"), w)
  | Some text =>
      if negb (truthy text) || (length text <? 2)
      then (ErrorResponse 400 (str "Text required"), w)
      else
        let audioFilename := str "custom_" ++ str (pretty name_now) ++ str ".mp3" in
        let audioPath := path_join AUDIO_DIR audioFilename in
        match generateTTS now (cleanText text) audioPath voice rate w with
        | (Rejected msg, w) => (ErrorResponse 500 msg, w)
        | (Resolved, w) =>
            (CustomResponse (audioUrl_of audioFilename)
               (getAudioDuration audioPath w), w)
        end
  end.

End Handlers.

(** ** The chunker and the normalizer on JavaScript values *)

(** The functions are compiled to JavaScript, where an argument can be
    anything and a method call on the wrong value throws. The values that
    matter here, and the two ways a call ends. *)
Inductive value : Type :=
  | VUndefined
  | VNumber (n : jsnum)
  | VString (s : jsstring).

Inductive completion (A : Type) : Type :=
  | Normal (a : A)
  | Throw (error_message : jsstring).
Arguments Normal {A} a.
Arguments Throw {A} error_message.

#[global] Instance completion_ret : MRet completion := fun A a => Normal a.
#[global] Instance completion_bind : MBind completion := fun A B k c =>
  match c with
  | Normal a => k a
  | Throw msg => Throw msg
  end.

Definition ToBoolean (v : value) : bool :=
  match v with
  | VUndefined => false
  | VNumber NaN => false
  | VNumber (Num z) => negb (z =? 0)%Z
  | VString s => truthy s
  end.

Definition ToString (v : value) : jsstring :=
  match v with
  | VUndefined => str "undefined"
  | VNumber n => Number_toString n
  | VString s => s
  end.

(** [a + b]: concatenation as soon as one operand is a string. *)
Definition add (a b : value) : value :=
  match a, b with
  | VString x, _ => VString (x ++ ToString b)
  | _, VString y => VString (ToString a ++ y)
  | VNumber (Num x), VNumber (Num y) => VNumber (Num (x + y))
  | _, _ => VNumber NaN
  end.

(** [v.length]: reading a property of [undefined] throws, a number has no
    such property ([None] is the value [undefined]). *)
Definition get_length (v : value) : completion (option Z) :=
  match v with
  | VUndefined => Throw undefined_length_message
  | VNumber _ => Normal None
  | VString s => Normal (Some (Z.of_nat (length s)))
  end.

(** [len < maxChars]; [undefined] converts to NaN. *)
Definition less_than (len : option Z) (maxChars : Z) : bool :=
  match len with
  | Some l => (l <? maxChars)%Z
  | None => false
  end.

(** [text.split(/(?<=[.!?])\s+/)] *)
Definition call_split (text : value) : completion (list value) :=
  match text with
  | VUndefined => Throw (str "Cannot read properties of undefined (reading 'split')")
  | VNumber _ => Throw (str "text.split is not a function")
  | VString s => Normal (VString <$> split_sentences s)
  end.

(** [v.trim()] *)
Definition call_trim (v : value) : completion value :=
  match v with
  | VUndefined => Throw (str "Cannot read properties of undefined (reading 'trim')")
  | VNumber _ => Throw (str "current.trim is not a function")
  | VString s => Normal (VString (trim s))
  end.

(** The loop of [splitIntoChunks], statement by statement. *)
Fixpoint chunk_loop_js (maxChars : Z) (sentences : list value)
    (chunks : list value) (current : value) : completion (list value * value) :=
  match sentences with
  | [] => Normal (chunks, current)
  | sentence :: rest =>
      len ← get_length (add current sentence);
      if less_than len maxChars
      then chunk_loop_js maxChars rest chunks (add current (add sentence (VString [Char.space])))
      else
        chunks ← (if ToBoolean current
                  then trimmed ← call_trim current; Normal (chunks ++ [trimmed])
                  else Normal chunks);
        chunk_loop_js maxChars rest chunks (add sentence (VString [Char.space]))
  end.

(** [splitIntoChunks(text, maxChars = 10000)]; [None] is an argument left
    out. *)
Definition splitIntoChunks_js (text : value) (maxChars : option Z)
    : completion (list value) :=
  let maxChars := default default_maxChars maxChars in
  sentences ← call_split text;
  '(chunks, current) ← chunk_loop_js maxChars sentences [] (VString []);
  trimmed ← call_trim current;
  if ToBoolean trimmed
  then trimmed ← call_trim current; Normal (chunks ++ [trimmed])
  else Normal chunks.

(** [cleanText(text)]: the guard returns the empty string for every falsy
    argument; [replace] exists on strings only. *)
Definition cleanText_js (text : value) : completion value :=
  if negb (ToBoolean text) then Normal (VString [])
  else
    match text with
    | VString s => Normal (VString (cleanText s))
    | _ => Throw (str "text.replace is not a function")
    end.

(** [splitIntoChunks(cleanText(text))], as the upload calls them. *)
Definition chunks_of_value (text : value) : completion (list value) :=
  fullText ← cleanText_js text;
  splitIntoChunks_js fullText None.

(** ** The other routes and helpers of the server *)

(** [getEdgeTTSPath]: the first candidate that is set, not empty and the
    path of an existing file; [edge-tts] when there is none. The first
    candidate is the environment variable [EDGE_TTS_PATH]. *)
Definition possiblePaths (env_EDGE_TTS_PATH : option jsstring) : list (option jsstring) :=
  [env_EDGE_TTS_PATH;
   Some (str "/home/ubuntu/.local/bin/edge-tts");
   Some (str "/usr/local/bin/edge-tts");
   Some (str "/Users/mohan/Library/Python/3.9/bin/edge-tts");
   Some (str "edge-tts")].

Fixpoint first_existing (paths : list (option jsstring)) (w : World) : option jsstring :=
  match paths with
  | [] => None
  | p :: rest =>
      match p with
      | Some path =>
          if truthy path && existsSync path w then Some path
          else first_existing rest w
      | None => first_existing rest w
      end
  end.

Definition getEdgeTTSPath (env_EDGE_TTS_PATH : option jsstring) (w : World) : jsstring :=
  default (str "edge-tts") (first_existing (possiblePaths env_EDGE_TTS_PATH) w).

(** The class [[0-9a-z]]. *)
Definition is_digit_or_lower (c : N) : bool :=
  Char.is_digit c || Char.between 97 122 c.

(** A digit of [Number.prototype.toString(36)]: [0-9], then [a-z]. *)
Definition digit36 (d : N) : N := if (d <? 10)%N then (48 + d)%N else (87 + d)%N.

(** The digits of [n] in radix 36 in front of [acc], most significant
    first; every step divides [n] by 36, so that a fuel above the binary
    logarithm of [n] is enough. *)
Fixpoint toString36_from (fuel : nat) (n : N) (acc : jsstring) : jsstring :=
  match fuel with
  | 0 => acc
  | S fuel' =>
      if (n =? 0)%N then acc
      else toString36_from fuel' (n / 36)%N (digit36 (n mod 36)%N :: acc)
  end.

(** [n.toString(36)] for a non-negative integer, as [Date.now()] is. *)
Definition toString36 (n : N) : jsstring :=
  if (n =? 0)%N then str "0" else toString36_from (S (N.to_nat (N.log2 n))) n [].

(** [text.split(/\s+/)]: the pieces between the maximal runs of white
    space; [in_run] says that the previous code unit was white space. *)
Fixpoint split_spaces_from (in_run : bool) (s : jsstring) : list jsstring :=
  match s with
  | [] => [[]]
  | c :: r =>
      if Char.is_space c
      then (if in_run then split_spaces_from true r else [] :: split_spaces_from true r)
      else push_char c (split_spaces_from false r)
  end.

Definition split_spaces (s : jsstring) : list jsstring := split_spaces_from false s.

(** [text.split(/\s+/).filter((w) => w.length > 0).length] *)
Definition wordCount_of (text : jsstring) : nat :=
  length (List.filter truthy (split_spaces text)).

(** [Math.ceil(fullText.split(/\s+/).length / 150)] *)
Definition estimatedMinutes_of (fullText : jsstring) : nat :=
  (length (split_spaces fullText) + 149) / 150.

(** [req.file] as multer leaves it: [None] when no file of type
    [application/pdf] came with the request. *)
Record UploadedFile : Type := {
  upload_path : jsstring;
  originalname : jsstring;
}.

(** What [pdfParse] does with the bytes of a file: the text and the number
    of pages, or an exception. *)
Inductive ParseOutcome : Type :=
  | Parsed (extracted : jsstring) (numpages : N)
  | ParseFailed (error_message : jsstring).

Inductive UploadResponse : Type :=
  | UploadFailed (code : N) (error_message : jsstring)
  | Uploaded (pdfId name : jsstring) (pages : N)
      (totalChunks chars estimatedMinutes : nat).

(** The message of the exception of [fs.readFileSync] for a missing file. *)
Definition enoent_message (path : jsstring) : jsstring :=
  str "ENOENT: no such file or directory, open '" ++ path ++ str "'".

(** POST [/api/upload], after multer. [pdfParse] is the parser, [now]
    what [Date.now()] returns; the result is the answer, the document
    table and the world. The field [uploadedAt] of the stored record is
    read nowhere and is left out of [PDFData]. *)
Definition post_upload (pdfParse : jsstring -> ParseOutcome)
    (pdfStore : gmap jsstring PDFData) (now : N) (file : option UploadedFile)
    (w : World) : UploadResponse * gmap jsstring PDFData * World :=
  match file with
  | None => (UploadFailed 400 (str "No PDF uploaded"), pdfStore, w)
  | Some f =>
      match disk w !! upload_path f with
      | None => (UploadFailed 500 (enoent_message (upload_path f)), pdfStore, w)
      | Some buffer =>
          match pdfParse buffer with
          | ParseFailed msg => (UploadFailed 500 msg, pdfStore, w)
          | Parsed extracted numpages =>
              let fullText := cleanText extracted in
              let chunks := splitIntoChunks fullText default_maxChars in
              let pdfId := toString36 now in
              let pdfStore :=
                <[pdfId := {| id := pdfId;
                              filename := originalname f;
                              totalPages := numpages;
                              totalChars := length fullText;
                              chunks := chunks |}]> pdfStore in
              let w := unlinkSync (upload_path f) w in
              (Uploaded pdfId (originalname f) numpages (length chunks)
                 (length fullText) (estimatedMinutes_of fullText),
               pdfStore, w)
          end
      end
  end.

(** GET [/api/pdf/:pdfId] *)
Record ChunkPreview : Type := {
  preview_index : nat;
  preview : jsstring;
  chars : nat;
}.

Inductive InfoResponse : Type :=
  | InfoFailed (code : N) (error_message : jsstring)
  | Info (pdfId name : jsstring) (pages : N) (totalChunks totalChars_ : nat)
      (previews : list ChunkPreview).

Definition get_pdf (pdfStore : gmap jsstring PDFData) (pdfId : jsstring) : InfoResponse :=
  match pdfStore !! pdfId with
  | None => InfoFailed 404 (str "PDF not found")
  | Some pdf =>
      Info (id pdf) (filename pdf) (totalPages pdf) (length (chunks pdf)) (totalChars pdf)
        (imap (fun i chunk =>
                 {| preview_index := i;
                    preview := take 100 chunk ++ str "...";
                    chars := length chunk |})
           (chunks pdf))
  end.

(** GET [/api/pdf/:pdfId/chunks] *)
Record ChunkWords : Type := {
  words_index : nat;
  words_text : jsstring;
  wordCount : nat;
}.

Inductive ChunksResponse : Type :=
  | ChunksFailed (code : N) (error_message : jsstring)
  | Chunks (pdfId name : jsstring) (entries : list ChunkWords).

Definition get_chunks (pdfStore : gmap jsstring PDFData) (pdfId : jsstring) : ChunksResponse :=
  match pdfStore !! pdfId with
  | None => ChunksFailed 404 (str "PDF not found")
  | Some pdf =>
      Chunks (id pdf) (filename pdf)
        (imap (fun i chunk =>
                 {| words_index := i;
                    words_text := chunk;
                    wordCount := wordCount_of chunk |})
           (chunks pdf))
  end.

(** GET [/api/tts/progress/:pdfId/:chunkIndex]; the key is made of the two
    parameters as they come. *)
Definition waiting : TTSProgress :=
  {| status := pending; progress := 0; message := str "Waiting..." |}.

Definition get_progress (pdfId chunkIndex : jsstring) (w : World) : TTSProgress :=
  default waiting (ttsProgress w !! (pdfId ++ str "_" ++ chunkIndex)).

(** ** Predicates of the proofs *)

(** A chunk respects the bound, or is one sentence that alone reaches it. *)
Definition within_bound (maxChars : Z) (sentences : list jsstring) (chunk : jsstring) : Prop :=
  (Z.of_nat (length chunk) < maxChars)%Z
  \/ exists sentence, sentence ∈ sentences
       /\ (maxChars <= Z.of_nat (length sentence))%Z /\ chunk = trim sentence.

(** The accumulator of the loop: empty, or some text followed by the space
    the loop appends, the text being below the bound or one oversized
    sentence. *)
Definition accumulator_ok (maxChars : Z) (sentences : list jsstring) (current : jsstring) : Prop :=
  current = []
  \/ exists body, current = body ++ [Char.space]
       /\ ((Z.of_nat (length body) < maxChars)%Z
           \/ (body ∈ sentences /\ (maxChars <= Z.of_nat (length body))%Z)).

(** White space of a text is single [U+0020] code units, none of them
    directly after another; [after_space] says that the code unit before
    the text was one (or that the text starts the string and may not
    begin with one). *)
Fixpoint single_spaced (after_space : bool) (s : jsstring) : Prop :=
  match s with
  | [] => True
  | c :: r =>
      if Char.is_space c
      then c = Char.space /\ after_space = false /\ single_spaced true r
      else single_spaced false r
  end.

(** The same, and the text does not end with a space. *)
Fixpoint normal_from (after_space : bool) (s : jsstring) : Prop :=
  match s with
  | [] => after_space = false
  | c :: r =>
      if Char.is_space c
      then c = Char.space /\ after_space = false /\ normal_from true r
      else normal_from false r
  end.

Definition normalized (s : jsstring) : Prop := s = [] \/ normal_from true s.

Definition starts_tight (s : jsstring) : Prop :=
  match s with
  | [] => False
  | c :: _ => Char.is_space c = false
  end.

Fixpoint ends_tight (s : jsstring) : Prop :=
  match s with
  | [] => False
  | [c] => Char.is_space c = false
  | _ :: r => ends_tight r
  end.

(** A non-empty string without white space at either end. *)
Definition tight (s : jsstring) : Prop := starts_tight s /\ ends_tight s.

(** The accumulator of the loop holds its sentences each followed by a
    space; so does this concatenation of a list of chunks. *)
Definition spaced_concat (l : list jsstring) : jsstring :=
  flat_map (fun s => s ++ [Char.space]) l.

Definition tight_accumulator (current : jsstring) : Prop :=
  current = [] \/ exists body, tight body /\ current = body ++ [Char.space].

(** The last statement of [splitIntoChunks]. *)
Definition finish (st : list jsstring * jsstring) : list jsstring :=
  if truthy (trim (snd st)) then fst st ++ [trim (snd st)] else fst st.

(** A sentence end directly followed by white space occurs in [s];
    [after_end] says that the code unit before [s] is a sentence end. *)
Fixpoint has_boundary (after_end : bool) (s : jsstring) : bool :=
  match s with
  | [] => false
  | c :: r => (after_end && Char.is_space c) || has_boundary (Char.is_sentence_end c) r
  end.

(** The last code unit of [s] is a sentence end ([after_end] stands for
    the code unit before [s], when [s] is empty). *)
Fixpoint ends_sentence (after_end : bool) (s : jsstring) : bool :=
  match s with
  | [] => after_end
  | c :: r => ends_sentence (Char.is_sentence_end c) r
  end.

Definition starts_with_space (s : jsstring) : bool :=
  match s with
  | [] => false
  | c :: _ => Char.is_space c
  end.

(** What [split] on the sentence boundary returns, said without a scan:
    a text without a boundary is one piece; otherwise the first piece
    runs to the first sentence end that white space follows, the whole
    run of white space is dropped, and the rest is split in the same
    way. *)
Inductive Split : jsstring -> list jsstring -> Prop :=
  | Split_last text :
      has_boundary false text = false ->
      Split text [text]
  | Split_cons piece ws rest pieces :
      has_boundary false piece = false ->
      ends_sentence false piece = true ->
      ws <> [] ->
      Forall (fun c => Char.is_space c = true) ws ->
      starts_with_space rest = false ->
      Split rest pieces ->
      Split (piece ++ ws ++ rest) (piece :: pieces).

Definition push_prefix (prefix : jsstring) (pieces : list jsstring) : list jsstring :=
  match pieces with
  | [] => []
  | p :: ps => (prefix ++ p) :: ps
  end.

(** The code units of a number in a template literal: digits and the
    minus sign (or the letters of NaN), never an underscore. *)
Definition numeric (c : N) : Prop := Char.is_digit c = true \/ c = 45%N.

(** The code units of a string that are not white space, in order. *)
Definition nonspace (s : jsstring) : jsstring :=
  List.filter (fun c => negb (Char.is_space c)) s.

(** A string with a code unit that is not white space. *)
Definition solid (s : jsstring) : Prop := nonspace s <> [].

Fixpoint all_but_last_solid (l : list jsstring) : Prop :=
  match l with
  | [] => True
  | s :: rest =>
      match rest with
      | [] => True
      | _ :: _ => solid s /\ all_but_last_solid rest
      end
  end.

(** A chunk as the document table holds it: not empty, and trimmed. *)
Definition stored_chunk (chunk : jsstring) : Prop :=
  chunk <> [] /\ trim chunk = chunk.

(** The code units the substitutions of [cleanText] replace. *)
Definition typographic (c : N) : bool :=
  ((c =? 8216) || (c =? 8217) || (c =? 8220) || (c =? 8221)
   || (c =? 8211) || (c =? 8212) || (c =? 8230))%N.

(** A code unit the first five passes of [cleanText] keep as it is. *)
Definition plain (c : N) : bool := negb (Char.is_control c) && negb (typographic c).

(** The first five passes of [cleanText] on one code unit. *)
Definition substitute (c : N) : jsstring :=
  if Char.is_control c then []
  else
    let c1 := if ((c =? 8216) || (c =? 8217))%N then Char.apostrophe else c in
    let c2 := if ((c1 =? 8220) || (c1 =? 8221))%N then Char.quote else c1 in
    let c3 := if ((c2 =? 8211) || (c2 =? 8212))%N then Char.hyphen else c2 in
    if (c3 =? 8230)%N then [Char.dot; Char.dot; Char.dot] else [c3].

(** ** Concrete collaborators and states, for the examples *)

(** The path that follows [--write-media] in the arguments. *)
Definition output_of (args : list jsstring) : option jsstring :=
  match args with
  | _ :: _ :: _ :: outputPath :: _ => Some outputPath
  | _ => None
  end.

(** An executable that writes the audio and exits with 0. *)
Definition writing_tool (run : nat) (args : list jsstring)
    (files : gmap jsstring jsstring) : ExecOutcome * gmap jsstring jsstring :=
  match output_of args with
  | Some outputPath => (Resolved, <[outputPath := str "ID3 audio"]> files)
  | None => (Rejected (str "Command failed"), files)
  end.

(** An executable that has written part of the audio when it is killed. *)
Definition interrupted_tool (run : nat) (args : list jsstring)
    (files : gmap jsstring jsstring) : ExecOutcome * gmap jsstring jsstring :=
  match output_of args with
  | Some outputPath => (Rejected (str "Command failed"), <[outputPath := str "ID3"]> files)
  | None => (Rejected (str "Command failed"), files)
  end.

(** An executable that fails before it writes anything. *)
Definition refusing_tool (run : nat) (args : list jsstring)
    (files : gmap jsstring jsstring) : ExecOutcome * gmap jsstring jsstring :=
  (Rejected (str "Command failed"), files).

Definition demo_collaborators
    (tool : nat -> list jsstring -> gmap jsstring jsstring -> ExecOutcome * gmap jsstring jsstring)
    : Collaborators :=
  {| Duration := nat;
     AUDIO_DIR := str "/srv/audio";
     edge_tts := tool;
     metadata_duration := fun files path =>
       match files !! path with
       | Some content => length content
       | None => 0
       end |}.

Definition demo_pdf : PDFData :=
  {| id := str "abc";
     filename := str "book.pdf";
     totalPages := 1;
     totalChars := 51;
     chunks := [str "Hello world. This is a test."; str "The end."] |}.

Definition demo_store : gmap jsstring PDFData := {[ str "abc" := demo_pdf ]}.

Definition empty_world : World :=
  {| disk := ∅; ttsProgress := ∅; invocations := [] |}.

(** A parser that accepts the files starting with the PDF marker and
    extracts the same two-line text from each. *)
Definition demo_pdfParse (buffer : jsstring) : ParseOutcome :=
  match buffer with
  | 37%N :: 80%N :: 68%N :: 70%N :: _ =>
      Parsed ([72; 101; 108; 108; 111; 32; 119; 111; 114; 108; 100; 46; 10]%N
                ++ str "This is a test.   Another sentence here.") 2
  | _ => ParseFailed (str "Invalid PDF structure")
  end.

Definition demo_upload : UploadedFile :=
  {| upload_path := str "/srv/uploads/1700000000000-book.pdf";
     originalname := str "book.pdf" |}.

Definition uploaded_world (content : jsstring) : World :=
  {| disk := {[ upload_path demo_upload := content ]};
     ttsProgress := ∅; invocations := [] |}.

(** * Properties *)

(** Closed goals on concrete requests are settled by evaluation. *)
Ltac evaluate :=
  vm_compute; first [reflexivity | lia | eexists; reflexivity].

(** ** The chunker on examples *)

Example split_scenario :
  splitIntoChunks (str "Hello world. This is a test. Another sentence here.") 30
  = [str "Hello world. This is a test."; str "Another sentence here."].
Proof. reflexivity. Qed.

Example split_runs :
  split_sentences (str "One.  Two!   three? four. ")
  = [str "One."; str "Two!"; str "three?"; str "four."; []].
Proof. reflexivity. Qed.

Example split_without_end :
  splitIntoChunks (str "  no sentence end here  ") default_maxChars
  = [str "no sentence end here"].
Proof. reflexivity. Qed.

Example parseInt_examples :
  parseInt (str " 42px") = Num 42 /\ parseInt (str "-7") = Num (-7)
  /\ parseInt (str "0x1f") = Num 31 /\ parseInt (str "first") = NaN
  /\ parseInt (str "") = NaN /\ parseInt (str "undefined") = NaN.
Proof. repeat split. Qed.

(** ** White space and [trim] *)

Lemma space_is_space : Char.is_space Char.space = true.
Proof. reflexivity. Qed.

Lemma trimStart_length s : length (trimStart s) <= length s.
Proof.
  induction s as [|c r IH]; simpl; [lia|].
  destruct (Char.is_space c); simpl; lia.
Qed.

Lemma trimEnd_length s : length (trimEnd s) <= length s.
Proof.
  induction s as [|c r IH]; simpl; [lia|].
  destruct (trimEnd r) as [|x r'].
  - destruct (Char.is_space c); simpl; lia.
  - simpl in *. lia.
Qed.

Lemma trim_length s : length (trim s) <= length s.
Proof.
  unfold trim. pose proof (trimEnd_length (trimStart s)).
  pose proof (trimStart_length s). lia.
Qed.

Lemma trimEnd_snoc_space s c :
  Char.is_space c = true -> trimEnd (s ++ [c]) = trimEnd s.
Proof.
  intros Hc. induction s as [|x r IH]; simpl.
  - now rewrite Hc.
  - now rewrite IH.
Qed.

Lemma trimStart_snoc_space s c :
  Char.is_space c = true ->
  (trimStart s = [] /\ trimStart (s ++ [c]) = [])
  \/ trimStart (s ++ [c]) = trimStart s ++ [c].
Proof.
  intros Hc. induction s as [|x r IH]; simpl.
  - left. now rewrite Hc.
  - destruct (Char.is_space x); [exact IH | now right].
Qed.

Lemma trim_snoc_space s c :
  Char.is_space c = true -> trim (s ++ [c]) = trim s.
Proof.
  intros Hc. unfold trim.
  destruct (trimStart_snoc_space s c Hc) as [[-> ->] | ->]; [reflexivity|].
  now apply trimEnd_snoc_space.
Qed.

(** ** The chunk bound *)

Section ChunkBound.
Variable maxChars : Z.
Variable sentences : list jsstring.

Lemma accumulator_trim_within current :
  accumulator_ok maxChars sentences current ->
  current <> [] ->
  within_bound maxChars sentences (trim current).
Proof.
  intros [-> | (body & -> & Hbody)] Hne; [congruence|].
  rewrite trim_snoc_space by apply space_is_space.
  destruct Hbody as [Hlt | [Hin Hge]].
  - left. pose proof (trim_length body). lia.
  - right. now exists body.
Qed.

Lemma truthy_nonempty (s : jsstring) : truthy s = true -> s <> [].
Proof. destruct s; [discriminate | congruence]. Qed.

Lemma accumulator_start sentence :
  sentence ∈ sentences ->
  accumulator_ok maxChars sentences (sentence ++ [Char.space]).
Proof.
  intros Hin. right. exists sentence. split; [reflexivity|].
  destruct (Z_lt_ge_dec (Z.of_nat (length sentence)) maxChars); [left | right]; auto with zarith.
Qed.

Lemma chunk_loop_within rest :
  forall chunks current,
    (forall s, s ∈ rest -> s ∈ sentences) ->
    Forall (within_bound maxChars sentences) chunks ->
    accumulator_ok maxChars sentences current ->
    Forall (within_bound maxChars sentences) (fst (chunk_loop maxChars rest chunks current))
    /\ accumulator_ok maxChars sentences (snd (chunk_loop maxChars rest chunks current)).
Proof.
  induction rest as [|sentence rest IH]; intros chunks current Hsub Hchunks Hcur; simpl.
  - now split.
  - assert (Hrest : forall s, s ∈ rest -> s ∈ sentences)
      by (intros s Hs; apply Hsub; now right).
    destruct (Z.ltb_spec (Z.of_nat (length (current ++ sentence))) maxChars) as [Hlt | Hge].
    + apply IH; [exact Hrest | exact Hchunks |].
      right. exists (current ++ sentence). split; [now rewrite app_assoc | now left].
    + apply IH; [exact Hrest | | apply accumulator_start, Hsub; now left].
      destruct (truthy current) eqn:Ht; [|exact Hchunks].
      apply Forall_app. split; [exact Hchunks|].
      constructor; [|constructor].
      apply accumulator_trim_within; [exact Hcur | now apply truthy_nonempty].
Qed.

Lemma trim_nil : trim [] = [].
Proof. reflexivity. Qed.
End ChunkBound.

Lemma chunks_within_bound (text : jsstring) (maxChars : Z) (chunk : jsstring) :
  chunk ∈ splitIntoChunks text maxChars ->
  (Z.of_nat (length chunk) < maxChars)%Z
  \/ exists sentence, sentence ∈ split_sentences text
       /\ (maxChars <= Z.of_nat (length sentence))%Z /\ chunk = trim sentence.
Proof.
  unfold splitIntoChunks.
  pose proof (chunk_loop_within maxChars (split_sentences text) (split_sentences text) [] []
                (fun _ Hs => Hs) (List.Forall_nil _) (or_introl eq_refl)) as [Hchunks Hcur].
  destruct (chunk_loop maxChars (split_sentences text) [] []) as [chunks current].
  simpl in Hchunks, Hcur.
  assert (Hall : Forall (within_bound maxChars (split_sentences text))
                   (if truthy (trim current) then chunks ++ [trim current] else chunks)).
  { destruct (truthy (trim current)) eqn:Ht; [|exact Hchunks].
    apply Forall_app. split; [exact Hchunks|].
    constructor; [|constructor].
    apply accumulator_trim_within; [exact Hcur|].
    intros ->. discriminate Ht. }
  intros Hin. rewrite Forall_forall in Hall. exact (Hall chunk Hin).
Qed.

(** An oversized sentence is a chunk of its own, unsplit. *)
Example oversized_sentence :
  splitIntoChunks (str "Short one. An overlong sentence without any stop. End.") 20
  = [str "Short one."; str "An overlong sentence without any stop."; str "End."].
Proof. reflexivity. Qed.

(** ** The chunker never throws on a string *)

Lemma chunk_loop_js_strings maxChars sentences :
  forall chunks current,
    chunk_loop_js maxChars (VString <$> sentences) (VString <$> chunks) (VString current)
    = Normal (VString <$> fst (chunk_loop maxChars sentences chunks current),
              VString (snd (chunk_loop maxChars sentences chunks current))).
Proof.
  induction sentences as [|sentence rest IH]; intros chunks current; [reflexivity|].
  cbn [fmap list_fmap chunk_loop_js chunk_loop add get_length ToString mbind
       completion_bind less_than ToBoolean call_trim].
  destruct (_ <? _)%Z.
  - exact (IH chunks (current ++ sentence ++ [Char.space])).
  - destruct (truthy current).
    + cbn [mbind completion_bind].
      change (?l ++ [VString ?x]) with (l ++ (VString <$> [x])).
      rewrite <- fmap_app. exact (IH _ _).
    + exact (IH _ _).
Qed.

Lemma splitIntoChunks_js_string text maxChars :
  splitIntoChunks_js (VString text) maxChars
  = Normal (VString <$> splitIntoChunks text (default default_maxChars maxChars)).
Proof.
  unfold splitIntoChunks_js, splitIntoChunks, call_split.
  cbn [mbind completion_bind].
  change (@nil value) with (VString <$> @nil jsstring).
  rewrite chunk_loop_js_strings.
  destruct (chunk_loop _ (split_sentences text) [] []) as [chunks current].
  cbn [mbind completion_bind fst snd call_trim ToBoolean].
  destruct (truthy (trim current)); [|reflexivity].
  now rewrite fmap_app.
Qed.

Lemma cleanText_js_string text :
  cleanText_js (VString text) = Normal (VString (cleanText text)).
Proof. unfold cleanText_js. now destruct text. Qed.

Lemma splitIntoChunks_nil maxChars : splitIntoChunks [] maxChars = [].
Proof. unfold splitIntoChunks. simpl. now destruct (_ <? _)%Z. Qed.

(** A call can fail in the model: without a text, [split] is read off
    [undefined]; and [cleanText] passes a missing text as the empty string
    and fails on a number. *)
Example splitIntoChunks_js_throws :
  splitIntoChunks_js VUndefined None
  = Throw (str "Cannot read properties of undefined (reading 'split')")
  /\ splitIntoChunks_js (VNumber (Num 5)) None = Throw (str "text.split is not a function")
  /\ cleanText_js VUndefined = Normal (VString [])
  /\ cleanText_js (VNumber (Num 5)) = Throw (str "text.replace is not a function").
Proof. repeat split. Qed.

(** C8. On every string, and with every bound or none, the call of
    [splitIntoChunks] completes normally, never with an exception, and
    returns the chunks of the pure function; so does [cleanText]
    followed by [splitIntoChunks]. The empty string gives no chunk, for
    every bound; it normalizes to the empty string, which gives no chunk
    again. *)
Theorem splitIntoChunks_total :
  (forall (text : jsstring) (maxChars : option Z),
     splitIntoChunks_js (VString text) maxChars
     = Normal (VString <$> splitIntoChunks text (default default_maxChars maxChars)))
  /\ (forall text : jsstring,
        cleanText_js (VString text) = Normal (VString (cleanText text))
        /\ chunks_of_value (VString text)
           = Normal (VString <$> splitIntoChunks (cleanText text) default_maxChars))
  /\ (forall maxChars : Z, splitIntoChunks [] maxChars = [])
  /\ (forall maxChars : option Z, splitIntoChunks_js (VString []) maxChars = Normal [])
  /\ cleanText [] = []
  /\ cleanText_js (VString []) = Normal (VString [])
  /\ (forall maxChars : Z, splitIntoChunks (cleanText []) maxChars = [])
  /\ chunks_of_value (VString []) = Normal [].
Proof.
  assert (Hpipe : forall text : jsstring,
             chunks_of_value (VString text)
             = Normal (VString <$> splitIntoChunks (cleanText text) default_maxChars)).
  { intros text. unfold chunks_of_value. rewrite cleanText_js_string.
    cbn [mbind completion_bind]. apply splitIntoChunks_js_string. }
  split; [exact splitIntoChunks_js_string|].
  split; [intros text; split; [apply cleanText_js_string | apply Hpipe]|].
  split; [exact splitIntoChunks_nil|].
  split.
  { intros maxChars. now rewrite splitIntoChunks_js_string, splitIntoChunks_nil. }
  split; [reflexivity|].
  split; [reflexivity|].
  split; [exact splitIntoChunks_nil|].
  rewrite Hpipe. change (cleanText []) with (@nil N). now rewrite splitIntoChunks_nil.
Qed.

(** ** The split, declaratively *)

Lemma has_boundary_snoc s :
  forall b c,
    has_boundary b (s ++ [c])
    = has_boundary b s || (ends_sentence b s && Char.is_space c).
Proof.
  induction s as [|x r IH]; intros b c.
  - simpl. now rewrite !orb_false_r.
  - change ((x :: r) ++ [c]) with (x :: (r ++ [c])).
    cbn [has_boundary]. rewrite IH, orb_assoc.
    now destruct r.
Qed.

Lemma ends_sentence_snoc s b c : ends_sentence b (s ++ [c]) = Char.is_sentence_end c.
Proof.
  revert b. induction s as [|x r IH]; intros b; [reflexivity|].
  change ((x :: r) ++ [c]) with (x :: (r ++ [c])).
  cbn [ends_sentence]. apply IH.
Qed.

Lemma trimStart_decompose s :
  s = take_while Char.is_space s ++ trimStart s
  /\ Forall (fun c => Char.is_space c = true) (take_while Char.is_space s)
  /\ starts_with_space (trimStart s) = false.
Proof.
  induction s as [|c r (Hs & Hws & Hrest)]; simpl; [now repeat split|].
  destruct (Char.is_space c) eqn:Hc.
  - repeat split; [simpl; f_equal; exact Hs | now constructor | exact Hrest].
  - repeat split; [constructor | simpl; exact Hc].
Qed.

Lemma trimEnd_decompose s :
  exists b, s = trimEnd s ++ b
    /\ Forall (fun c => Char.is_space c = true) b
    /\ (trimEnd s = [] \/ ends_tight (trimEnd s)).
Proof.
  induction s as [|c r (b & Hr & Hb & Hend)]; [exists []; now repeat split; auto|].
  simpl. destruct (trimEnd r) as [|x r'] eqn:Htrim.
  - simpl in Hr. subst b. destruct (Char.is_space c) eqn:Hc.
    + exists (c :: r). repeat split; [now constructor | now left].
    + exists r. repeat split; [exact Hb | now right].
  - exists b. repeat split; [simpl; f_equal; exact Hr | exact Hb |].
    right. destruct Hend as [Hnil | Hend]; [discriminate | exact Hend].
Qed.

(** [trim] removes a run of white space at each end and leaves a string
    that is empty or has none at its ends. *)
Lemma trim_spec s :
  exists a b, s = a ++ trim s ++ b
    /\ Forall (fun c => Char.is_space c = true) a
    /\ Forall (fun c => Char.is_space c = true) b
    /\ (trim s = [] \/ tight (trim s)).
Proof.
  destruct (trimStart_decompose s) as (Hs & Ha & Hstart).
  destruct (trimEnd_decompose (trimStart s)) as (b & Hz & Hb & Hend).
  exists (take_while Char.is_space s), b. unfold trim.
  repeat split; [now rewrite <- Hz | exact Ha | exact Hb |].
  destruct Hend as [Hnil | Hend]; [now left | right]. split; [|exact Hend].
  destruct (trimEnd (trimStart s)) as [|c t]; [contradiction|].
  rewrite Hz in Hstart. exact Hstart.
Qed.

Lemma push_prefix_push_char prefix c pieces :
  push_prefix prefix (push_char c pieces) = push_prefix (prefix ++ [c]) pieces
  \/ pieces = [].
Proof.
  destruct pieces as [|h t]; [now right|left]. simpl. now rewrite <- app_assoc.
Qed.

Lemma push_prefix_nil pieces : push_prefix [] pieces = pieces.
Proof. now destruct pieces. Qed.

Lemma split_from_nonempty st s : split_from st s <> [].
Proof.
  revert st. induction s as [|c r IH]; intros st; [discriminate|].
  destruct st as [|p]; simpl.
  - destruct (Char.is_space c); [apply IH|].
    specialize (IH (InSentence (Char.is_sentence_end c))).
    now destruct (split_from _ r).
  - destruct (p && Char.is_space c); [discriminate|].
    specialize (IH (InSentence (Char.is_sentence_end c))).
    now destruct (split_from _ r).
Qed.

Lemma split_from_spec s :
  (forall prefix,
      has_boundary false prefix = false ->
      Split (prefix ++ s)
        (push_prefix prefix (split_from (InSentence (ends_sentence false prefix)) s)))
  /\ Split (trimStart s) (split_from InSeparator s).
Proof.
  induction s as [|c r [IHsentence IHseparator]].
  - split.
    + intros prefix Hprefix. simpl. rewrite app_nil_r. now constructor.
    + now constructor.
  - assert (Hread : forall prefix,
               has_boundary false prefix = false ->
               ends_sentence false prefix && Char.is_space c = false ->
               Split (prefix ++ c :: r)
                 (push_prefix prefix
                    (push_char c (split_from (InSentence (Char.is_sentence_end c)) r)))).
    { intros prefix Hprefix Hnot.
      destruct (push_prefix_push_char prefix c
                  (split_from (InSentence (Char.is_sentence_end c)) r)) as [-> | Hnil];
        [|now apply split_from_nonempty in Hnil].
      replace (prefix ++ c :: r) with ((prefix ++ [c]) ++ r) by now rewrite <- app_assoc.
      rewrite <- (ends_sentence_snoc prefix false c).
      apply IHsentence. now rewrite has_boundary_snoc, Hprefix, Hnot. }
    split.
    + intros prefix Hprefix. cbn [split_from].
      destruct (ends_sentence false prefix && Char.is_space c) eqn:Hb;
        [|now apply Hread].
      apply andb_true_iff in Hb as [Hend Hc].
      destruct (trimStart_decompose r) as (Hr & Hws & Hrest).
      cbn [push_prefix]. rewrite app_nil_r.
      rewrite Hr at 1.
      change (prefix ++ c :: take_while Char.is_space r ++ trimStart r)
        with (prefix ++ (c :: take_while Char.is_space r) ++ trimStart r).
      apply Split_cons; try assumption; [discriminate | now constructor].
    + cbn [split_from trimStart]. destruct (Char.is_space c) eqn:Hc; [exact IHseparator|].
      rewrite <- (push_prefix_nil (push_char c _)). now apply (Hread []).
Qed.

(** The model of [split] on the sentence boundary is the split at the
    maximal runs of white space that follow a sentence end. *)
Theorem split_sentences_spec text : Split text (split_sentences text).
Proof.
  destruct (split_from_spec text) as [Hsentence _].
  specialize (Hsentence [] eq_refl). now rewrite push_prefix_nil in Hsentence.
Qed.

Lemma first_boundary_unique p1 :
  forall p2 s1 s2 b,
    p1 ++ s1 = p2 ++ s2 ->
    has_boundary b p1 = false -> has_boundary b p2 = false ->
    ends_sentence b p1 = true -> ends_sentence b p2 = true ->
    starts_with_space s1 = true -> starts_with_space s2 = true ->
    p1 = p2 /\ s1 = s2.
Proof.
  induction p1 as [|x p1 IH]; intros [|y p2] s1 s2 b Heq Hb1 Hb2 He1 He2 Hs1 Hs2;
    simpl in *.
  - now split.
  - subst s1 b. simpl in Hs1. now rewrite Hs1 in Hb2.
  - subst s2 b. simpl in Hs2. now rewrite Hs2 in Hb1.
  - injection Heq as -> Heq.
    apply orb_false_iff in Hb1 as [_ Hb1]. apply orb_false_iff in Hb2 as [_ Hb2].
    destruct (IH p2 s1 s2 _ Heq Hb1 Hb2 He1 He2 Hs1 Hs2) as [-> ->]. now split.
Qed.

Lemma space_run_unique ws1 :
  forall ws2 rest1 rest2,
    ws1 ++ rest1 = ws2 ++ rest2 ->
    Forall (fun c => Char.is_space c = true) ws1 ->
    Forall (fun c => Char.is_space c = true) ws2 ->
    starts_with_space rest1 = false -> starts_with_space rest2 = false ->
    ws1 = ws2 /\ rest1 = rest2.
Proof.
  induction ws1 as [|x ws1 IH]; intros [|y ws2] rest1 rest2 Heq H1 H2 Hr1 Hr2;
    simpl in *.
  - now split.
  - subst rest1. inversion H2; subst. simpl in Hr1. congruence.
  - subst rest2. inversion H1; subst. simpl in Hr2. congruence.
  - injection Heq as -> Heq. inversion H1; subst. inversion H2; subst.
    destruct (IH ws2 rest1 rest2 Heq) as [-> ->]; auto.
Qed.

Lemma has_boundary_app a :
  forall b s,
    has_boundary b (a ++ s) = has_boundary b a || has_boundary (ends_sentence b a) s.
Proof.
  induction a as [|x a IH]; intros b s; [reflexivity|].
  simpl. now rewrite IH, orb_assoc.
Qed.

Lemma starts_with_space_run ws rest :
  ws <> [] -> Forall (fun c => Char.is_space c = true) ws ->
  starts_with_space (ws ++ rest) = true.
Proof. intros Hne Hws. destruct ws; [congruence|]. now inversion Hws. Qed.

Lemma has_boundary_run ws rest :
  ws <> [] -> Forall (fun c => Char.is_space c = true) ws ->
  has_boundary true (ws ++ rest) = true.
Proof.
  intros Hne Hws. destruct ws as [|c ws]; [congruence|].
  inversion Hws as [|? ? Hc _]; subst. simpl. now rewrite Hc.
Qed.

(** The pieces are determined by the text. *)
Lemma Split_functional text pieces1 :
  Split text pieces1 -> forall pieces2, Split text pieces2 -> pieces1 = pieces2.
Proof.
  induction 1 as [text Hnone | piece ws rest pieces Hnone Hend Hne Hws Hrest _ IH];
    intros pieces2 H2.
  - inversion H2 as [? _ | piece ws rest pieces Hnone' Hend' Hne' Hws' _ _]; subst;
      [reflexivity|].
    rewrite has_boundary_app, Hend', (has_boundary_run ws rest Hne' Hws') in Hnone.
    now rewrite orb_true_r in Hnone.
  - inversion H2 as [? Hnone' | piece' ws' rest' pieces' Hnone' Hend' Hne' Hws' Hrest' Hsplit' Htext];
      subst.
    + rewrite has_boundary_app, Hend, (has_boundary_run ws rest Hne Hws) in Hnone'.
      now rewrite orb_true_r in Hnone'.
    + destruct (first_boundary_unique piece piece' (ws ++ rest) (ws' ++ rest') false)
        as [-> Hrun]; try assumption; try (now apply starts_with_space_run);
        [congruence|].
      apply space_run_unique in Hrun as [-> ->]; try assumption.
      f_equal. now apply IH.
Qed.

(** X22. [split_sentences] is the one list of pieces the description
    allows: the text is its pieces with a run of white space between
    neighbours, every piece but the last ends with a sentence end, the
    run after it is maximal, and no piece holds a sentence end followed
    by white space. *)
Corollary split_sentences_unique text pieces :
  Split text pieces <-> pieces = split_sentences text.
Proof.
  split.
  - intros Hs. exact (Split_functional text pieces Hs _ (split_sentences_spec text)).
  - intros ->. apply split_sentences_spec.
Qed.

(** ** Normalized text *)

Lemma line_terminator_is_space c :
  Char.is_line_terminator c = true -> Char.is_space c = true /\ c <> Char.space.
Proof.
  unfold Char.is_line_terminator. rewrite !orb_true_iff, !N.eqb_eq.
  intros [[[-> | ->] | ->] | ->]; split; (reflexivity || discriminate).
Qed.

Lemma collapse_from_single_spaced s :
  forall b, single_spaced b (collapse_from b s).
Proof.
  induction s as [|c r IH]; intros b; simpl; [exact I|].
  destruct (Char.is_space c) eqn:Hc.
  - destruct b; [apply IH|]. simpl. repeat split. apply IH.
  - simpl. rewrite Hc. apply IH.
Qed.

Lemma single_spaced_no_terminator s :
  forall b, single_spaced b s -> Forall (fun c => Char.is_line_terminator c = false) s.
Proof.
  induction s as [|c r IH]; intros b Hs; constructor.
  - simpl in Hs. destruct (Char.is_line_terminator c) eqn:Hlt; [|reflexivity].
    apply line_terminator_is_space in Hlt as [Hsp Hne].
    rewrite Hsp in Hs. now destruct Hs.
  - simpl in Hs. destruct (Char.is_space c); [apply (IH true) | apply (IH false)]; tauto.
Qed.

Lemma single_spaced_trimStart s :
  forall b b', single_spaced b s -> single_spaced b' (trimStart s).
Proof.
  induction s as [|c r IH]; intros b b' Hs; simpl; [exact I|].
  simpl in Hs. destruct (Char.is_space c) eqn:Hc.
  - apply (IH true). tauto.
  - simpl. now rewrite Hc.
Qed.

Lemma single_spaced_trimEnd s :
  forall b, single_spaced b s -> trimEnd s = [] \/ normal_from b (trimEnd s).
Proof.
  induction s as [|c r IH]; intros b Hs; simpl; [now left|].
  simpl in Hs. destruct (Char.is_space c) eqn:Hc.
  - destruct Hs as (-> & -> & Hr). destruct (IH true Hr) as [-> | Hn]; [now left|].
    destruct (trimEnd r) as [|x r'] eqn:Hx; [now left|].
    right. simpl. simpl in Hn. repeat split. exact Hn.
  - destruct (IH false Hs) as [-> | Hn].
    + right. simpl. now rewrite Hc.
    + destruct (trimEnd r) as [|x r'] eqn:Hx.
      * right. simpl. now rewrite Hc.
      * right. change (normal_from b (c :: x :: r')). simpl. rewrite Hc. exact Hn.
Qed.

Lemma single_spaced_trim s b : single_spaced b s -> normalized (trim s).
Proof.
  intros Hs. unfold trim, normalized.
  apply (single_spaced_trimEnd _ true), (single_spaced_trimStart s b true Hs).
Qed.

(** *** The digit-line replacement on a text without line terminators *)

Lemma take_drop_while p s : take_while p s ++ drop_while p s = s.
Proof.
  induction s as [|c r IH]; simpl; [reflexivity|].
  destruct (p c); simpl; [now rewrite IH | reflexivity].
Qed.

Lemma last_terminator_none ws :
  Forall (fun c => Char.is_line_terminator c = false) ws -> last_terminator ws = None.
Proof.
  induction 1 as [|c r Hc _ IH]; simpl; [reflexivity|]. now rewrite IH, Hc.
Qed.

Lemma Forall_take_while (P : N -> Prop) p s : Forall P s -> Forall P (take_while p s).
Proof.
  induction 1 as [|c r Hc _ IH]; simpl; [constructor|].
  destruct (p c); now constructor.
Qed.

Lemma Forall_drop_while (P : N -> Prop) p s : Forall P s -> Forall P (drop_while p s).
Proof.
  induction 1 as [|c r Hc Hr IH]; simpl; [constructor|].
  destruct (p c); [exact IH | now constructor].
Qed.

Lemma digit_line_match_whole s :
  Forall (fun c => Char.is_line_terminator c = false) s ->
  digit_line_match s = None \/ digit_line_match s = Some (length s).
Proof.
  intros Hs. unfold digit_line_match.
  destruct (take_while Char.is_digit s) as [|d ds] eqn:Hds; [now left|].
  destruct (drop_while Char.is_space (drop_while Char.is_digit s)) as [|x r2] eqn:Hr2.
  - right. f_equal.
    pose proof (f_equal length (take_drop_while Char.is_digit s)) as E1.
    pose proof (f_equal length
                  (take_drop_while Char.is_space (drop_while Char.is_digit s))) as E2.
    rewrite Hr2, app_nil_r in E2. rewrite length_app, Hds in E1. lia.
  - left. rewrite last_terminator_none; [reflexivity|].
    now apply Forall_take_while, Forall_drop_while.
Qed.

Lemma remove_digit_lines_skip_all s :
  forall n prev, length s <= n -> remove_digit_lines_from n prev s = [].
Proof.
  induction s as [|c r IH]; intros n prev Hn; simpl; [reflexivity|].
  destruct n as [|k]; simpl in Hn; [lia|]. apply IH. lia.
Qed.

Lemma remove_digit_lines_inside_line s :
  forall c, Char.is_line_terminator c = false ->
    Forall (fun c => Char.is_line_terminator c = false) s ->
    remove_digit_lines_from 0 (Some c) s = s.
Proof.
  induction s as [|x r IH]; intros c Hc Hs; simpl; [reflexivity|].
  rewrite Hc. inversion Hs; subst. f_equal. now apply IH.
Qed.

Lemma remove_digit_lines_one_line s :
  Forall (fun c => Char.is_line_terminator c = false) s ->
  remove_digit_lines s = s \/ remove_digit_lines s = [].
Proof.
  intros Hs. unfold remove_digit_lines. destruct s as [|c r]; [now left|].
  assert (Hkeep : c :: remove_digit_lines_from 0 (Some c) r = c :: r).
  { inversion Hs; subst. f_equal. now apply remove_digit_lines_inside_line. }
  cbn [remove_digit_lines_from at_line_start].
  destruct (digit_line_match_whole (c :: r) Hs) as [-> | ->]; [now left|].
  right. cbn [length]. now apply remove_digit_lines_skip_all.
Qed.

Lemma cleanText_normalized text : normalized (cleanText text).
Proof.
  unfold cleanText. destruct (negb (truthy text)); [now left|].
  match goal with |- context [collapse_spaces ?t] => set (u := t) end.
  pose proof (collapse_from_single_spaced u false) as Hs.
  fold (collapse_spaces u) in Hs.
  destruct (remove_digit_lines_one_line (collapse_spaces u)
              (single_spaced_no_terminator _ _ Hs)) as [-> | ->].
  - exact (single_spaced_trim _ _ Hs).
  - now left.
Qed.

(** ** Reconstruction of a normalized text from its chunks *)

Lemma trim_tight s : tight s -> trim s = s.
Proof.
  intros [Hstart Hend]. unfold trim.
  assert (trimStart s = s) as ->.
  { destruct s as [|c r]; [reflexivity|]. simpl in *. now rewrite Hstart. }
  clear Hstart. induction s as [|c r IH]; [reflexivity|].
  destruct r as [|x r'].
  - simpl in *. now rewrite Hend.
  - change (ends_tight (x :: r')) in Hend. specialize (IH Hend).
    change (trimEnd (c :: x :: r')) with
      (match trimEnd (x :: r') with
       | [] => if Char.is_space c then [] else [c]
       | y :: r'' => c :: y :: r''
       end).
    now rewrite IH.
Qed.

Lemma ends_tight_nonempty s : ends_tight s -> s <> [].
Proof. destruct s; [contradiction | discriminate]. Qed.

Lemma ends_tight_cons c s : ends_tight s -> ends_tight (c :: s).
Proof. destruct s; [contradiction | trivial]. Qed.

Lemma ends_tight_app a b : ends_tight b -> ends_tight (a ++ b).
Proof.
  intros Hb. induction a as [|c a IH]; [exact Hb|].
  simpl. now apply ends_tight_cons.
Qed.

Lemma tight_app_space a b : tight a -> tight b -> tight (a ++ [Char.space] ++ b).
Proof.
  intros [Ha _] [_ Hb]. split.
  - destruct a; [contradiction | exact Ha].
  - now apply ends_tight_app, ends_tight_app.
Qed.

Lemma tight_cons c h :
  Char.is_space c = false -> h = [] \/ ends_tight h -> tight (c :: h).
Proof.
  intros Hc [-> | Hh]; split; try exact Hc.
  now apply ends_tight_cons.
Qed.

Lemma join_space_push c h t :
  join_space (push_char c (h :: t)) = c :: join_space (h :: t).
Proof. destruct t; reflexivity. Qed.

(** On a normalized text every separator is one space, so that the
    sentences joined by single spaces are the text, and every sentence is
    tight. [b] follows [normal_from]; the scan is inside a separator only
    just after a space. *)
Lemma split_from_normal s :
  forall st b,
    normal_from b s ->
    (st = InSeparator -> b = true) ->
    exists h t, split_from st s = h :: t
      /\ join_space (h :: t) = s
      /\ Forall tight t
      /\ (if b then tight h else h = [] \/ ends_tight h).
Proof.
  induction s as [|c r IH]; intros st b Hn Hst.
  - simpl in Hn. subst b. exists [], []. repeat split; [constructor | now left].
  - simpl in Hn. destruct (Char.is_space c) eqn:Hc.
    + destruct Hn as (-> & -> & Hr).
      destruct st as [|p]; [now specialize (Hst eq_refl)|].
      destruct p.
      * destruct (IH InSeparator true Hr (fun _ => eq_refl)) as (h & t & Hsplit & Hjoin & Ht & Hh).
        exists [], (h :: t). simpl. rewrite Hsplit. repeat split.
        -- simpl in Hjoin. now rewrite Hjoin.
        -- now constructor.
        -- now left.
      * destruct (IH (InSentence (Char.is_sentence_end Char.space)) true Hr)
          as (h & t & Hsplit & Hjoin & Ht & Hh); [discriminate|].
        exists (Char.space :: h), t. simpl.
        change (Char.is_sentence_end 32) with (Char.is_sentence_end Char.space).
        rewrite Hsplit. repeat split.
        -- rewrite <- Hjoin. apply (join_space_push Char.space h t).
        -- exact Ht.
        -- right. apply ends_tight_cons, Hh.
    + destruct (IH (InSentence (Char.is_sentence_end c)) false Hn)
        as (h & t & Hsplit & Hjoin & Ht & Hh); [discriminate|].
      exists (c :: h), t.
      assert (Hpieces : split_from st (c :: r) = (c :: h) :: t).
      { destruct st as [|p]; simpl; rewrite Hc, ?andb_false_r, Hsplit; reflexivity. }
      repeat split; [exact Hpieces | | exact Ht |].
      * rewrite <- Hjoin. apply (join_space_push c h t).
      * destruct b; [now apply tight_cons|].
        right. destruct Hh as [-> | Hh]; [exact Hc | now apply ends_tight_cons].
Qed.

Lemma spaced_concat_app l1 l2 :
  spaced_concat (l1 ++ l2) = spaced_concat l1 ++ spaced_concat l2.
Proof. apply flat_map_app. Qed.

Lemma spaced_concat_join l :
  l <> [] -> spaced_concat l = join_space l ++ [Char.space].
Proof.
  induction l as [|s rest IH]; [congruence|]. intros _.
  destruct rest as [|s' rest'].
  - simpl. now rewrite app_nil_r.
  - change (spaced_concat (s :: s' :: rest'))
      with ((s ++ [Char.space]) ++ spaced_concat (s' :: rest')).
    change (join_space (s :: s' :: rest'))
      with (s ++ Char.space :: join_space (s' :: rest')).
    rewrite IH by discriminate.
    now rewrite <- !app_assoc.
Qed.

Lemma finish_tight chunks current :
  tight_accumulator current ->
  spaced_concat (finish (chunks, current)) = spaced_concat chunks ++ current.
Proof.
  unfold finish. simpl. intros [-> | (body & Hbody & ->)].
  - simpl. now rewrite app_nil_r.
  - rewrite trim_snoc_space, (trim_tight body Hbody) by apply space_is_space.
    destruct body as [|c b]; [destruct Hbody as [[] _]|]. simpl truthy. cbv iota.
    rewrite spaced_concat_app. simpl. now rewrite app_nil_r.
Qed.

Lemma chunk_loop_concat maxChars rest :
  forall chunks current,
    Forall tight rest ->
    tight_accumulator current ->
    spaced_concat (finish (chunk_loop maxChars rest chunks current))
    = spaced_concat chunks ++ current ++ spaced_concat rest.
Proof.
  induction rest as [|sentence rest IH]; intros chunks current Hrest Hcur.
  - simpl. rewrite app_nil_r. now apply finish_tight.
  - inversion Hrest as [|? ? Hs Hrest']; subst.
    cbn [chunk_loop].
    destruct (Z.of_nat (length (current ++ sentence)) <? maxChars)%Z.
    + rewrite IH; [|exact Hrest'|].
      * simpl. now rewrite <- !app_assoc.
      * right. exists (current ++ sentence). split; [|now rewrite <- app_assoc].
        destruct Hcur as [-> | (body & Hbody & ->)]; [exact Hs|].
        rewrite <- app_assoc. now apply tight_app_space.
    + rewrite IH; [|exact Hrest'|right; now exists sentence].
      pose proof (finish_tight chunks current Hcur) as Hfin.
      unfold finish in Hfin. simpl in Hfin.
      assert (Hpush : spaced_concat (if truthy current then chunks ++ [trim current] else chunks)
                      = spaced_concat chunks ++ current).
      { destruct Hcur as [-> | (body & Hbody & ->)].
        - simpl. now rewrite app_nil_r.
        - assert (truthy (body ++ [Char.space]) = true) as -> by (now destruct body).
          rewrite trim_snoc_space, (trim_tight body Hbody) by apply space_is_space.
          rewrite spaced_concat_app. simpl. now rewrite app_nil_r. }
      rewrite Hpush. simpl. now rewrite <- !app_assoc.
Qed.

Lemma splitIntoChunks_finish text maxChars :
  splitIntoChunks text maxChars
  = finish (chunk_loop maxChars (split_sentences text) [] []).
Proof.
  unfold splitIntoChunks, finish.
  now destruct (chunk_loop maxChars (split_sentences text) [] []).
Qed.

Lemma splitIntoChunks_join_normalized text maxChars :
  normalized text -> join_space (splitIntoChunks text maxChars) = text.
Proof.
  intros [-> | Hn].
  - unfold splitIntoChunks. simpl. now destruct (_ <? _)%Z.
  - destruct (split_from_normal text (InSentence false) true Hn)
      as (h & t & Hsplit & Hjoin & Ht & Hh); [discriminate|].
    pose proof (chunk_loop_concat maxChars (h :: t) [] []
                  (@List.Forall_cons _ tight h t Hh Ht) (or_introl eq_refl)) as Hcat.
    rewrite splitIntoChunks_finish. unfold split_sentences. rewrite Hsplit.
    set (result := finish (chunk_loop maxChars (h :: t) [] [])) in *.
    change (spaced_concat [] ++ [] ++ spaced_concat (h :: t))
      with (spaced_concat (h :: t)) in Hcat.
    rewrite (spaced_concat_join (h :: t)) in Hcat by discriminate.
    rewrite Hjoin in Hcat.
    destruct result as [|c0 cs] eqn:Hres.
    + simpl in Hcat. destruct text; discriminate.
    + rewrite spaced_concat_join in Hcat by discriminate.
      now apply app_inv_tail in Hcat.
Qed.

(** The chunks the upload stores reconstruct the normalized text. *)
Corollary chunks_of_extracted_join text :
  join_space (chunks_of_extracted text) = cleanText text.
Proof. apply splitIntoChunks_join_normalized, cleanText_normalized. Qed.

(** A text without [.], [!] and [?] is one sentence. *)
Lemma split_sentences_no_end text :
  Forall (fun c => Char.is_sentence_end c = false) text ->
  split_sentences text = [text].
Proof.
  unfold split_sentences. induction 1 as [|c r Hc _ IH]; [reflexivity|].
  simpl. now rewrite Hc, IH.
Qed.

(** ** The oversized sentence *)

(** A chunk once pushed stays. *)
Lemma finish_chunk_loop_mono maxChars rest :
  forall chunks current chunk,
    chunk ∈ chunks -> chunk ∈ finish (chunk_loop maxChars rest chunks current).
Proof.
  induction rest as [|sentence rest IH]; intros chunks current chunk Hin.
  - unfold finish. simpl. destruct (truthy _); [|exact Hin].
    apply elem_of_app. now left.
  - cbn [chunk_loop]. destruct (_ <? _)%Z; [now apply IH|].
    apply IH. destruct (truthy current); [|exact Hin].
    apply elem_of_app. now left.
Qed.

(** An oversized sentence alone in the accumulator takes no other
    sentence in: it is pushed, trimmed, at the next sentence or at the end. *)
Lemma oversized_accumulator maxChars rest chunks sentence :
  (maxChars <= Z.of_nat (length sentence))%Z ->
  trim sentence <> [] ->
  trim sentence ∈ finish (chunk_loop maxChars rest chunks (sentence ++ [Char.space])).
Proof.
  intros Hge Hne.
  assert (Htrim : trim (sentence ++ [Char.space]) = trim sentence)
    by apply trim_snoc_space, space_is_space.
  destruct rest as [|next rest].
  - unfold finish. simpl fst. simpl snd. rewrite Htrim.
    destruct (trim sentence) eqn:Heq; [congruence|].
    simpl. apply elem_of_app. right. constructor.
  - cbn [chunk_loop].
    destruct (Z.ltb_spec (Z.of_nat (length ((sentence ++ [Char.space]) ++ next))) maxChars)
      as [Hlt | _].
    { rewrite !length_app in Hlt. lia. }
    apply finish_chunk_loop_mono.
    assert (truthy (sentence ++ [Char.space]) = true) as -> by (now destruct sentence).
    rewrite Htrim. apply elem_of_app. right. constructor.
Qed.

Lemma oversized_sentence_kept maxChars rest :
  forall chunks current sentence,
    sentence ∈ rest ->
    (maxChars <= Z.of_nat (length sentence))%Z ->
    trim sentence <> [] ->
    trim sentence ∈ finish (chunk_loop maxChars rest chunks current).
Proof.
  induction rest as [|next rest IH]; intros chunks current sentence Hin Hge Hne.
  - now apply elem_of_nil in Hin.
  - apply elem_of_cons in Hin as [-> | Hin].
    + cbn [chunk_loop].
      destruct (Z.ltb_spec (Z.of_nat (length (current ++ next))) maxChars) as [Hlt | _].
      { rewrite length_app in Hlt. lia. }
      now apply oversized_accumulator.
    + cbn [chunk_loop]. destruct (_ <? _)%Z; now apply IH.
Qed.

(** C1. Let [pieces] be the sentences of [text]: what lies between the
    runs of white space that follow a [.], [!] or [?]. Every chunk
    [splitIntoChunks] returns is shorter than [maxChars], except a chunk
    that is one sentence as long as [maxChars] or longer, trimmed. And
    every such oversized sentence is a chunk, whole: trimmed, unless
    nothing is left of it then. *)
Theorem splitIntoChunks_bound (text : jsstring) (maxChars : Z) (pieces : list jsstring) :
  Split text pieces ->
  (forall chunk, chunk ∈ splitIntoChunks text maxChars ->
     (Z.of_nat (length chunk) < maxChars)%Z
     \/ exists sentence, sentence ∈ pieces
          /\ (maxChars <= Z.of_nat (length sentence))%Z /\ chunk = trim sentence)
  /\ (forall sentence, sentence ∈ pieces ->
        (maxChars <= Z.of_nat (length sentence))%Z ->
        trim sentence <> [] ->
        trim sentence ∈ splitIntoChunks text maxChars).
Proof.
  intros Hsplit.
  rewrite (Split_functional text pieces Hsplit _ (split_sentences_spec text)).
  split.
  - intros chunk. apply chunks_within_bound.
  - intros sentence Hin Hge Hne. rewrite splitIntoChunks_finish.
    now apply oversized_sentence_kept.
Qed.

Lemma splitIntoChunks_bound_witness :
  Split (str "Short one. An overlong sentence without any stop. End.")
        [str "Short one."; str "An overlong sentence without any stop."; str "End."]
  /\ str "An overlong sentence without any stop."
     ∈ splitIntoChunks (str "Short one. An overlong sentence without any stop. End.") 20
  /\ ((Z.of_nat (length (str "End.")) < 20)%Z
      \/ exists sentence,
           sentence ∈ [str "Short one."; str "An overlong sentence without any stop.";
                       str "End."]
           /\ (20 <= Z.of_nat (length sentence))%Z /\ str "End." = trim sentence).
Proof.
  assert (Hsplit : Split (str "Short one. An overlong sentence without any stop. End.")
                     [str "Short one."; str "An overlong sentence without any stop.";
                      str "End."])
    by exact (split_sentences_spec
                (str "Short one. An overlong sentence without any stop. End.")).
  destruct (splitIntoChunks_bound _ 20 _ Hsplit) as [Hbound Hkept].
  split; [exact Hsplit | split].
  - apply (Hkept (str "An overlong sentence without any stop.")).
    + apply elem_of_cons. right. apply elem_of_cons. now left.
    + vm_compute. discriminate.
    + vm_compute. discriminate.
  - apply (Hbound (str "End.")).
    rewrite oversized_sentence. do 2 (apply elem_of_cons; right). apply elem_of_cons. now left.
Defined.

(** C2. For a normalized text (one that [cleanText] maps to itself) and
    every bound, the chunks joined by single spaces are the text. *)
Theorem chunks_reconstruct_text (text : jsstring) (maxChars : Z) :
  cleanText text = text ->
  join_space (splitIntoChunks text maxChars) = text.
Proof.
  intros Hfix. apply splitIntoChunks_join_normalized.
  rewrite <- Hfix. apply cleanText_normalized.
Qed.

Lemma chunks_reconstruct_text_witness :
  join_space
    (splitIntoChunks (str "Hello world. This is a test. Another sentence here.") 30)
  = str "Hello world. This is a test. Another sentence here.".
Proof.
  apply (chunks_reconstruct_text
           (str "Hello world. This is a test. Another sentence here.") 30).
  vm_compute. reflexivity.
Defined.

(** ** The normalizer and lines of digits *)

(** On the text as extracted, the replacement removes a line of digits. *)
Example remove_digit_lines_multiline :
  remove_digit_lines [97; 10; 49; 50; 10; 98]%N = [97; 10; 10; 98]%N.
Proof. reflexivity. Qed.

(** C6. In [cleanText] the replacement runs after white space, line
    terminators included, has been collapsed to single spaces: the text
    is one line then, and the line [12] of the input [a], newline, [12],
    newline, [b] is still in the output. *)
Theorem cleanText_keeps_digit_line :
  cleanText [97; 10; 49; 50; 10; 98]%N = str "a 12 b".
Proof. reflexivity. Qed.

(** After the collapse the replacement removes all of the text or none. *)
Lemma cleanText_digit_lines_all_or_nothing text :
  let collapsed :=
    collapse_spaces
      (replace_ellipsis
         (replace_pair 8211 8212 Char.hyphen
            (replace_pair 8220 8221 Char.quote
               (replace_pair 8216 8217 Char.apostrophe (remove_control text))))) in
  remove_digit_lines collapsed = collapsed \/ remove_digit_lines collapsed = [].
Proof.
  intros collapsed. apply remove_digit_lines_one_line.
  apply (single_spaced_no_terminator _ false), collapse_from_single_spaced.
Qed.

(** ** The request handlers *)

Section HandlerProperties.
Context `{Collaborators}.

Lemma tempFile_not_audioPath now pdfId index voice :
  tempFile_of now <> audioPath_of pdfId index voice.
Proof.
  unfold tempFile_of, audioPath_of, path_join, audioFilename_of. intros Heq.
  apply (f_equal (@rev N)) in Heq. rewrite !rev_app_distr in Heq.
  change (rev (str ".txt")) with [116; 120; 116; 46]%N in Heq.
  change (rev (str ".mp3")) with [51; 112; 109; 46]%N in Heq.
  rewrite <- !app_assoc in Heq. discriminate Heq.
Qed.

Lemma guard_in_range (l : list jsstring) i text :
  l !! i = Some text ->
  num_lt (Num (Z.of_nat i)) (Num 0)
  || num_ge (Num (Z.of_nat i)) (Num (Z.of_nat (length l))) = false.
Proof.
  intros Hi. apply lookup_lt_Some in Hi. simpl.
  apply orb_false_iff. split; [apply Z.ltb_ge | apply Z.leb_gt]; lia.
Qed.

Lemma array_get_nat (l : list jsstring) i : array_get l (Num (Z.of_nat i)) = l !! i.
Proof.
  unfold array_get. destruct (Z.leb_spec 0 (Z.of_nat i)); [|lia].
  now rewrite Nat2Z.id.
Qed.

Lemma finally_unlink tempFile (w : World) :
  (if existsSync tempFile w then unlinkSync tempFile w else w)
  = {| disk := delete tempFile (disk w);
       ttsProgress := ttsProgress w;
       invocations := invocations w |}.
Proof.
  unfold existsSync, unlinkSync. destruct (disk w !! tempFile) eqn:Hd; [reflexivity|].
  rewrite (delete_id _ _ Hd). now destruct w.
Qed.

(** [generateTTS] writes the scratch file, runs the executable once and
    removes the scratch file, whatever the outcome. *)
Lemma generateTTS_run now text outputPath voice rate w outcome files :
  edge_tts (length (invocations w))
    (tts_args (tempFile_of now) outputPath voice rate)
    (<[tempFile_of now := text]> (disk w)) = (outcome, files) ->
  generateTTS now text outputPath voice rate w
  = (outcome,
     {| disk := delete (tempFile_of now) files;
        ttsProgress := ttsProgress w;
        invocations :=
          invocations w ++ [tts_args (tempFile_of now) outputPath voice rate] |}).
Proof.
  intros Hrun. unfold generateTTS, execFileAsync. simpl. rewrite Hrun.
  now rewrite finally_unlink.
Qed.

Section OneChunk.
Variables (pdfStore : gmap jsstring PDFData) (pdfId chunkIndex : jsstring).
Variables (pdf : PDFData) (i : nat) (text : jsstring).
Hypothesis Hpdf : pdfStore !! pdfId = Some pdf.
Hypothesis Hindex : parseInt chunkIndex = Num (Z.of_nat i).
Hypothesis Hchunk : chunks pdf !! i = Some text.

Lemma post_tts_short now voice rate w :
  length text < 10 ->
  post_tts pdfStore now pdfId chunkIndex voice rate w
  = (ErrorResponse 400 (str "Chunk too short"), w).
Proof.
  intros Hlen. unfold post_tts.
  rewrite Hpdf, Hindex, (guard_in_range _ _ _ Hchunk), array_get_nat, Hchunk.
  destruct (Nat.ltb_spec (length text) 10); [reflexivity | lia].
Qed.

Hypothesis Hlong : 10 <= length text.

(** A file at the path of the key is answered from the cache: the
    world is not touched. *)
Lemma post_tts_cached now voice rate w content :
  disk w !! audioPath_of pdfId (Num (Z.of_nat i)) (default default_voice voice)
    = Some content ->
  post_tts pdfStore now pdfId chunkIndex voice rate w
  = (TTSResponse
       (audioUrl_of (audioFilename_of pdfId (Num (Z.of_nat i)) (default default_voice voice)))
       (metadata_duration (disk w)
          (audioPath_of pdfId (Num (Z.of_nat i)) (default default_voice voice)))
       true, w).
Proof.
  intros Hfile. unfold post_tts.
  rewrite Hpdf, Hindex, (guard_in_range _ _ _ Hchunk), array_get_nat, Hchunk.
  destruct (Nat.ltb_spec (length text) 10); [lia|].
  unfold existsSync. fold (audioPath_of pdfId (Num (Z.of_nat i)) (default default_voice voice)).
  now rewrite Hfile.
Qed.

(** No file at the path of the key: one run of the executable. *)
Lemma post_tts_synthesize now voice rate w outcome files :
  let voice' := default default_voice voice in
  let rate' := default default_rate rate in
  let audioPath := audioPath_of pdfId (Num (Z.of_nat i)) voice' in
  let args := tts_args (tempFile_of now) audioPath voice' rate' in
  let key := pdfId ++ str "_" ++ Number_toString (Num (Z.of_nat i)) in
  let started :=
    <[key := {| status := processing; progress := 50;
                message := str "Generating audio..." |}]> (ttsProgress w) in
  disk w !! audioPath = None ->
  edge_tts (length (invocations w)) args (<[tempFile_of now := text]> (disk w))
    = (outcome, files) ->
  post_tts pdfStore now pdfId chunkIndex voice rate w
  = match outcome with
    | Resolved =>
        (TTSResponse (audioUrl_of (audioFilename_of pdfId (Num (Z.of_nat i)) voice'))
           (metadata_duration (delete (tempFile_of now) files) audioPath) false,
         {| disk := delete (tempFile_of now) files;
            ttsProgress :=
              <[key := {| status := completed; progress := 100;
                          message := str "Done" |}]> started;
            invocations := invocations w ++ [args] |})
    | Rejected msg =>
        (ErrorResponse 500 msg,
         {| disk := delete (tempFile_of now) files;
            ttsProgress := started;
            invocations := invocations w ++ [args] |})
    end.
Proof.
  intros voice' rate' audioPath args key started Hnone Hrun. unfold post_tts.
  rewrite Hpdf, Hindex, (guard_in_range _ _ _ Hchunk), array_get_nat, Hchunk.
  destruct (Nat.ltb_spec (length text) 10); [lia|].
  unfold existsSync. fold voice' rate'.
  fold (audioPath_of pdfId (Num (Z.of_nat i)) voice'). fold audioPath.
  rewrite Hnone.
  erewrite generateTTS_run by exact Hrun.
  destruct outcome; reflexivity.
Qed.
End OneChunk.


(** C5. The path of the artifact is computed from the document, the
    chunk index and the voice; the rate is no argument of it. After a
    first request has synthesized the chunk at [rate1], a request for
    the same document, index and voice at any [rate2] is answered from
    the cache with the same URL: nothing is run and the file written at
    [rate1] stays. *)
Theorem cache_key_ignores_rate
    (pdfStore : gmap jsstring PDFData) (pdfId chunkIndex : jsstring)
    (pdf : PDFData) (i : nat) (text : jsstring) (voice rate1 rate2 : option jsstring)
    (now1 now2 : N) (w : World) (files : gmap jsstring jsstring) :
  let voice' := default default_voice voice in
  let audioPath := audioPath_of pdfId (Num (Z.of_nat i)) voice' in
  let args := tts_args (tempFile_of now1) audioPath voice' (default default_rate rate1) in
  let url := audioUrl_of (audioFilename_of pdfId (Num (Z.of_nat i)) voice') in
  pdfStore !! pdfId = Some pdf ->
  parseInt chunkIndex = Num (Z.of_nat i) ->
  chunks pdf !! i = Some text ->
  10 <= length text ->
  disk w !! audioPath = None ->
  edge_tts (length (invocations w)) args (<[tempFile_of now1 := text]> (disk w))
    = (Resolved, files) ->
  is_Some (files !! audioPath) ->
  exists duration1 duration2 w1,
    post_tts pdfStore now1 pdfId chunkIndex voice rate1 w
      = (TTSResponse url duration1 false, w1)
    /\ disk w1 !! audioPath = files !! audioPath
    /\ post_tts pdfStore now2 pdfId chunkIndex voice rate2 w1
      = (TTSResponse url duration2 true, w1).
Proof.
  intros voice' audioPath args url Hpdf Hindex Hchunk Hlong Hnone Hrun [content Hfile].
  pose proof (post_tts_synthesize pdfStore pdfId chunkIndex pdf i text
                Hpdf Hindex Hchunk Hlong now1 voice rate1 w Resolved files Hnone Hrun) as H1.
  cbv zeta in H1. rewrite H1. do 3 eexists.
  assert (Hkept : delete (tempFile_of now1) files !! audioPath = files !! audioPath)
    by (apply lookup_delete_ne, tempFile_not_audioPath).
  split; [reflexivity|]. split; [exact Hkept|].
  eapply (post_tts_cached pdfStore pdfId chunkIndex pdf i text Hpdf Hindex Hchunk Hlong).
  simpl. fold voice'. fold audioPath. rewrite Hkept. exact Hfile.
Qed.

(** C4, as the code has it. The handler writes and removes its scratch
    file only: when the run fails and has left no file at the output
    path, there is none after the request, and a later request for the
    key is not answered from the cache. *)
Theorem failed_synthesis_no_artifact
    (pdfStore : gmap jsstring PDFData) (pdfId chunkIndex : jsstring)
    (pdf : PDFData) (i : nat) (text : jsstring) (voice rate : option jsstring)
    (now : N) (w : World) (msg : jsstring) (files : gmap jsstring jsstring) :
  let voice' := default default_voice voice in
  let audioPath := audioPath_of pdfId (Num (Z.of_nat i)) voice' in
  let args := tts_args (tempFile_of now) audioPath voice' (default default_rate rate) in
  pdfStore !! pdfId = Some pdf ->
  parseInt chunkIndex = Num (Z.of_nat i) ->
  chunks pdf !! i = Some text ->
  10 <= length text ->
  disk w !! audioPath = None ->
  edge_tts (length (invocations w)) args (<[tempFile_of now := text]> (disk w))
    = (Rejected msg, files) ->
  files !! audioPath = None ->
  exists w1,
    post_tts pdfStore now pdfId chunkIndex voice rate w = (ErrorResponse 500 msg, w1)
    /\ disk w1 = delete (tempFile_of now) files
    /\ existsSync audioPath w1 = false
    /\ forall now2 rate2 url duration,
         fst (post_tts pdfStore now2 pdfId chunkIndex voice rate2 w1)
         <> TTSResponse url duration true.
Proof.
  intros voice' audioPath args Hpdf Hindex Hchunk Hlong Hnone Hrun Hclean.
  pose proof (post_tts_synthesize pdfStore pdfId chunkIndex pdf i text
                Hpdf Hindex Hchunk Hlong now voice rate w (Rejected msg) files Hnone Hrun) as H1.
  cbv zeta in H1. rewrite H1. eexists. split; [reflexivity|].
  assert (Habsent : delete (tempFile_of now) files !! audioPath = None).
  { rewrite lookup_delete_ne by apply tempFile_not_audioPath. exact Hclean. }
  split; [reflexivity|]. split.
  - unfold existsSync. simpl. now rewrite Habsent.
  - intros now2 rate2 url duration.
    match goal with |- fst (post_tts _ _ _ _ _ _ ?w0) <> _ => set (w1 := w0) end.
    destruct (edge_tts (length (invocations w1))
                (tts_args (tempFile_of now2) audioPath voice' (default default_rate rate2))
                (<[tempFile_of now2 := text]> (disk w1))) as [outcome files2] eqn:Hrun2.
    pose proof (post_tts_synthesize pdfStore pdfId chunkIndex pdf i text
                  Hpdf Hindex Hchunk Hlong now2 voice rate2 w1 outcome files2 Habsent Hrun2) as H2.
    cbv zeta in H2. rewrite H2. destruct outcome; simpl; congruence.
Qed.

(** C9. Text that is too short is refused before anything is run: a
    chunk shorter than 10 code units and custom text that is missing,
    empty or shorter than 2 code units get the status 400 and leave the
    world as it was; custom text of 2 code units or more is normalized
    and handed to the executable, once. *)
Theorem too_short_rejected
    (pdfStore : gmap jsstring PDFData) (pdfId chunkIndex : jsstring)
    (pdf : PDFData) (i : nat) (chunk : jsstring)
    (voice rate : option jsstring) (name_now now : N) (w : World) :
  (pdfStore !! pdfId = Some pdf ->
   parseInt chunkIndex = Num (Z.of_nat i) ->
   chunks pdf !! i = Some chunk ->
   length chunk < 10 ->
   post_tts pdfStore now pdfId chunkIndex voice rate w
   = (ErrorResponse 400 (str "Chunk too short"), w))
  /\ post_tts_custom name_now now None voice rate w
     = (ErrorResponse 400 (str "Text required"), w)
  /\ (forall text, length text < 2 ->
        post_tts_custom name_now now (Some text) voice rate w
        = (ErrorResponse 400 (str "Text required"), w))
  /\ (forall text, 2 <= length text ->
        let audioFilename := str "custom_" ++ str (pretty name_now) ++ str ".mp3" in
        let audioPath := path_join AUDIO_DIR audioFilename in
        let args := tts_args (tempFile_of now) audioPath
                      (default default_voice voice) (default default_rate rate) in
        exists outcome files,
          edge_tts (length (invocations w)) args
            (<[tempFile_of now := cleanText text]> (disk w)) = (outcome, files)
          /\ post_tts_custom name_now now (Some text) voice rate w
             = (match outcome with
                | Resolved =>
                    CustomResponse (audioUrl_of audioFilename)
                      (metadata_duration (delete (tempFile_of now) files) audioPath)
                | Rejected msg => ErrorResponse 500 msg
                end,
                {| disk := delete (tempFile_of now) files;
                   ttsProgress := ttsProgress w;
                   invocations := invocations w ++ [args] |})).
Proof.
  split; [|split; [|split]].
  - intros Hpdf Hindex Hchunk Hlen.
    now apply (post_tts_short pdfStore pdfId chunkIndex pdf i chunk).
  - reflexivity.
  - intros text Hlen. unfold post_tts_custom.
    destruct (Nat.ltb_spec (length text) 2); [|lia]. now rewrite orb_true_r.
  - intros text Hlen audioFilename audioPath args.
    destruct (edge_tts (length (invocations w)) args
                (<[tempFile_of now := cleanText text]> (disk w)))
      as [outcome files] eqn:Hrun.
    exists outcome, files. split; [reflexivity|]. unfold post_tts_custom.
    destruct (Nat.ltb_spec (length text) 2); [lia|].
    assert (truthy text = true) as -> by (destruct text; [simpl in Hlen; lia | reflexivity]).
    simpl negb. simpl orb. cbv iota. fold audioFilename. fold audioPath.
    rewrite (generateTTS_run now (cleanText text) audioPath _ _ w outcome files Hrun).
    destruct outcome; reflexivity.
Qed.

(** C10. For an existing document, a chunk index that [parseInt] maps
    to NaN passes the range guard of both handlers, both comparisons
    being false: the GET handler answers with status 200, the index NaN
    and an undefined text, and the POST handler reads the length of the
    undefined chunk and ends in the status 500; neither answers with
    the error of an invalid index. *)
Theorem nan_index_passes_guard
    (pdfStore : gmap jsstring PDFData) (pdfId chunkIndex : jsstring) (pdf : PDFData) :
  pdfStore !! pdfId = Some pdf ->
  parseInt chunkIndex = NaN ->
  num_lt NaN (Num 0) || num_ge NaN (Num (Z.of_nat (length (chunks pdf)))) = false
  /\ get_chunk pdfStore pdfId chunkIndex = ChunkResponse NaN None (length (chunks pdf))
  /\ forall now voice rate w,
       post_tts pdfStore now pdfId chunkIndex voice rate w
       = (ErrorResponse 500 undefined_length_message, w).
Proof.
  intros Hpdf Hnan. split; [reflexivity|]. split.
  - unfold get_chunk. now rewrite Hpdf, Hnan.
  - intros now voice rate w. unfold post_tts. now rewrite Hpdf, Hnan.
Qed.

End HandlerProperties.

(** ** The path of an artifact *)

Lemma str_inj (a b : string) : str a = str b -> a = b.
Proof.
  unfold str. intros Heq.
  rewrite <- (string_of_list_ascii_of_string a), <- (string_of_list_ascii_of_string b).
  f_equal. revert Heq. generalize (list_ascii_of_string a) (list_ascii_of_string b).
  induction l as [|x l IH]; intros [|y l']; simpl; intros Heq; try discriminate; [reflexivity|].
  injection Heq as Hxy Hl. f_equal; [|now apply IH].
  now rewrite <- (ascii_N_embedding x), <- (ascii_N_embedding y), Hxy.
Qed.

Lemma pretty_N_char_digit d : Char.is_digit (N_of_ascii (pretty_N_char d)) = true.
Proof. unfold pretty_N_char. repeat case_match; reflexivity. Qed.

Lemma pretty_N_go_numeric x :
  forall s, Forall numeric (str s) -> Forall numeric (str (pretty_N_go x s)).
Proof.
  induction (N.lt_wf_0 x) as [x _ IH]; intros s Hs.
  destruct (decide (0 < x)%N) as [Hpos | Hzero].
  - rewrite pretty_N_go_step by exact Hpos. apply IH.
    + apply N.div_lt; lia.
    + constructor; [left; apply pretty_N_char_digit | exact Hs].
  - assert (x = 0%N) as -> by lia. now rewrite pretty_N_go_0.
Qed.

Lemma pretty_N_numeric (x : N) : Forall numeric (str (pretty x)).
Proof.
  unfold pretty, pretty_N. destruct (decide (x = 0%N)).
  - repeat constructor.
  - apply pretty_N_go_numeric. constructor.
Qed.

Lemma pretty_Z_numeric (z : Z) : Forall numeric (str (pretty z)).
Proof.
  destruct z as [|p|p].
  - repeat constructor.
  - apply (pretty_N_numeric (N.pos p)).
  - change (Forall numeric (45%N :: str (pretty (N.pos p)))).
    constructor; [now right | apply pretty_N_numeric].
Qed.

Lemma Number_toString_no_underscore n : Char.underscore ∉ Number_toString n.
Proof.
  destruct n as [|z]; simpl.
  - intros Hin. repeat (apply elem_of_cons in Hin as [Hin | Hin]; [discriminate|]).
    now apply elem_of_nil in Hin.
  - intros Hin. pose proof (pretty_Z_numeric z) as Hnum.
    rewrite Forall_forall in Hnum. destruct (Hnum _ Hin) as [Hd | Hd]; discriminate.
Qed.

Lemma Number_toString_inj n1 n2 : Number_toString n1 = Number_toString n2 -> n1 = n2.
Proof.
  assert (Hnan : forall z : Z, str "NaN" <> str (pretty z)).
  { intros z Heq. pose proof (pretty_Z_numeric z) as Hnum. rewrite <- Heq in Hnum.
    inversion Hnum as [|? ? [Hd | Hd] _]; discriminate. }
  destruct n1 as [|z1], n2 as [|z2]; simpl; intros Heq.
  - reflexivity.
  - now apply Hnan in Heq.
  - symmetry in Heq. now apply Hnan in Heq.
  - f_equal. apply str_inj in Heq. now apply (inj pretty).
Qed.

Lemma sanitize_voice_alnum `{Collaborators} voice :
  Forall (fun c => Char.is_alnum c = true) (sanitize_voice voice).
Proof.
  unfold sanitize_voice. apply List.Forall_forall. intros c Hc.
  now apply List.filter_In in Hc.
Qed.

Lemma sanitize_voice_no_underscore `{Collaborators} voice :
  Char.underscore ∉ sanitize_voice voice.
Proof.
  intros Hin. pose proof (sanitize_voice_alnum voice) as Hal.
  rewrite Forall_forall in Hal. specialize (Hal _ Hin). discriminate.
Qed.

(** Two strings cut at their first occurrence of a code unit. *)
Lemma first_occurrence_inj (x : N) (a1 a2 b1 b2 : jsstring) :
  x ∉ a1 -> x ∉ a2 -> a1 ++ x :: b1 = a2 ++ x :: b2 -> a1 = a2 /\ b1 = b2.
Proof.
  revert a2. induction a1 as [|y a1 IH]; intros [|z a2] H1 H2 Heq; simpl in Heq.
  - injection Heq as Hb. now split.
  - injection Heq as Hx _. subst z. destruct H2. now left.
  - injection Heq as Hx _. subst y. destruct H1. now left.
  - injection Heq as Hy Htl. subst z.
    destruct (IH a2) as [-> ->]; auto.
    + intros Hin. apply H1. now right.
    + intros Hin. apply H2. now right.
Qed.

Lemma not_elem_of_rev (x : N) (l : jsstring) : x ∉ l -> x ∉ rev l.
Proof.
  intros Hl Hin. apply Hl, list_elem_of_In, in_rev, list_elem_of_In, Hin.
Qed.

Section ArtifactPath.
Context `{Collaborators}.

Lemma audioFilename_inj pdfId1 index1 voice1 pdfId2 index2 voice2 :
  audioFilename_of pdfId1 index1 voice1 = audioFilename_of pdfId2 index2 voice2 ->
  pdfId1 = pdfId2 /\ index1 = index2 /\ sanitize_voice voice1 = sanitize_voice voice2.
Proof.
  unfold audioFilename_of. intros Heq.
  apply (f_equal (@rev N)) in Heq. rewrite !rev_app_distr, <- !app_assoc in Heq.
  apply app_inv_head in Heq.
  change (rev (str "_")) with [Char.underscore] in Heq.
  change (rev (str "_chunk_"))
    with (Char.underscore :: [107; 110; 117; 104; 99; 95]%N) in Heq.
  simpl app in Heq.
  apply first_occurrence_inj in Heq as [Hvoice Heq];
    try apply not_elem_of_rev, sanitize_voice_no_underscore.
  apply first_occurrence_inj in Heq as [Hindex Heq];
    try apply not_elem_of_rev, Number_toString_no_underscore.
  injection Heq as Hid.
  apply (f_equal (@rev N)) in Hvoice, Hindex, Hid.
  rewrite !rev_involutive in Hvoice, Hindex, Hid.
  repeat split; [exact Hid | now apply Number_toString_inj | exact Hvoice].
Qed.

(** C7, as the code has it. The path is a function of the document, the
    chunk index and the sanitized voice, which keeps the letters and
    digits of the voice only: two keys have the same path exactly when
    they have the same document, the same index and the same sanitized
    voice. *)
Theorem audioPath_collision_free_up_to_sanitizing
    (pdfId1 pdfId2 : jsstring) (index1 index2 : jsnum) (voice1 voice2 : jsstring) :
  Forall (fun c => Char.is_alnum c = true) (sanitize_voice voice1)
  /\ (audioPath_of pdfId1 index1 voice1 = audioPath_of pdfId2 index2 voice2
      <-> pdfId1 = pdfId2 /\ index1 = index2
          /\ sanitize_voice voice1 = sanitize_voice voice2).
Proof.
  split; [apply sanitize_voice_alnum|]. split.
  - unfold audioPath_of, path_join. intros Heq.
    do 2 apply app_inv_head in Heq. now apply audioFilename_inj.
  - intros (-> & -> & Hvoice). unfold audioPath_of, audioFilename_of.
    now rewrite Hvoice.
Qed.

(** On the voices of the catalog the sanitizing loses nothing, so that
    their keys have distinct paths. *)
Lemma sanitize_voice_inj_on_VOICES voice1 voice2 :
  voice1 ∈ VOICES -> voice2 ∈ VOICES ->
  sanitize_voice voice1 = sanitize_voice voice2 -> voice1 = voice2.
Proof.
  unfold VOICES. intros H1 H2.
  repeat (apply elem_of_cons in H1 as [-> | H1]);
    try (now apply elem_of_nil in H1);
    repeat (apply elem_of_cons in H2 as [-> | H2]);
    try (now apply elem_of_nil in H2);
    intros Heq; first [reflexivity | vm_compute in Heq; discriminate Heq].
Qed.

Corollary audioPath_inj_on_VOICES pdfId1 pdfId2 index1 index2 voice1 voice2 :
  voice1 ∈ VOICES -> voice2 ∈ VOICES ->
  audioPath_of pdfId1 index1 voice1 = audioPath_of pdfId2 index2 voice2 ->
  (pdfId1, index1, voice1) = (pdfId2, index2, voice2).
Proof.
  intros H1 H2 Heq. unfold audioPath_of, path_join in Heq.
  do 2 apply app_inv_head in Heq.
  apply audioFilename_inj in Heq as (-> & -> & Hvoice).
  now rewrite (sanitize_voice_inj_on_VOICES voice1 voice2 H1 H2 Hvoice).
Qed.
End ArtifactPath.

(** ** The handlers on concrete requests *)


Lemma cache_key_ignores_rate_witness :
  exists duration1 duration2 w1,
    post_tts (H := demo_collaborators writing_tool) demo_store 1700000000000
      (str "abc") (str "0") None (Some (str "+0%")) empty_world
    = (TTSResponse (str "/audio/abc_chunk_0_enUSAriaNeural.mp3") duration1 false, w1)
    /\ disk w1 !! str "/srv/audio/abc_chunk_0_enUSAriaNeural.mp3" = Some (str "ID3 audio")
    /\ post_tts (H := demo_collaborators writing_tool) demo_store 1700000000500
         (str "abc") (str "0") None (Some (str "+30%")) w1
       = (TTSResponse (str "/audio/abc_chunk_0_enUSAriaNeural.mp3") duration2 true, w1).
Proof.
  edestruct (cache_key_ignores_rate (H := demo_collaborators writing_tool) demo_store
               (str "abc") (str "0") demo_pdf 0 (str "Hello world. This is a test.")
               None (Some (str "+0%")) (Some (str "+30%"))
               1700000000000 1700000000500 empty_world)
    as (duration1 & duration2 & w1 & Hfirst & Hfile & Hsecond).
  - evaluate.
  - evaluate.
  - reflexivity.
  - evaluate.
  - evaluate.
  - evaluate.
  - evaluate.
  - exists duration1, duration2, w1. split; [exact Hfirst|]. split; [|exact Hsecond].
    etransitivity; [exact Hfile|]. vm_compute. reflexivity.
Defined.

(** C4 fails as stated. The executable receives the path of the artifact
    itself and the handler removes nothing but its scratch file: when the
    run is interrupted after part of the audio has been written, the
    request ends in the status 500, the partial file stays at the path of
    the key, and the next request returns it as a cached entry. *)
Lemma failed_synthesis_partial_artifact_cached :
  exists w1,
    post_tts (H := demo_collaborators interrupted_tool) demo_store 1700000000000
      (str "abc") (str "0") None None empty_world
    = (ErrorResponse 500 (str "Command failed"), w1)
    /\ disk w1 !! audioPath_of (H := demo_collaborators interrupted_tool)
                    (str "abc") (Num 0) default_voice = Some (str "ID3")
    /\ existsSync (audioPath_of (H := demo_collaborators interrupted_tool)
                     (str "abc") (Num 0) default_voice) w1 = true
    /\ fst (post_tts (H := demo_collaborators interrupted_tool) demo_store 1700000000500
              (str "abc") (str "0") None None w1)
       = TTSResponse (H := demo_collaborators interrupted_tool)
           (str "/audio/abc_chunk_0_enUSAriaNeural.mp3") 3 true.
Proof.
  eexists. split; [vm_compute; reflexivity|].
  repeat split; vm_compute; reflexivity.
Qed.

Lemma failed_synthesis_no_artifact_witness :
  exists w1,
    post_tts (H := demo_collaborators refusing_tool) demo_store 1700000000000
      (str "abc") (str "0") None None empty_world
    = (ErrorResponse 500 (str "Command failed"), w1)
    /\ disk w1 = ∅
    /\ existsSync (str "/srv/audio/abc_chunk_0_enUSAriaNeural.mp3") w1 = false
    /\ forall now2 rate2 url duration,
         fst (post_tts (H := demo_collaborators refusing_tool) demo_store now2
                (str "abc") (str "0") None rate2 w1)
         <> TTSResponse url duration true.
Proof.
  edestruct (failed_synthesis_no_artifact (H := demo_collaborators refusing_tool) demo_store
               (str "abc") (str "0") demo_pdf 0 (str "Hello world. This is a test.")
               None None 1700000000000 empty_world)
    as (w1 & Hfirst & Hdisk & Hexists & Hlater).
  - evaluate.
  - evaluate.
  - reflexivity.
  - evaluate.
  - evaluate.
  - evaluate.
  - evaluate.
  - exists w1. split; [exact Hfirst|]. split; [|split; [exact Hexists | exact Hlater]].
    rewrite Hdisk. vm_compute. reflexivity.
Defined.

(** C7 fails as stated: the sanitizing removes the hyphens of a voice, so
    that two distinct voices of one chunk share a path. *)
Lemma sanitized_voices_collide :
  (str "abc", Num 0, str "en-US-AriaNeural") <> (str "abc", Num 0, str "enUSAriaNeural")
  /\ audioPath_of (H := demo_collaborators writing_tool)
       (str "abc") (Num 0) (str "en-US-AriaNeural")
     = audioPath_of (H := demo_collaborators writing_tool)
         (str "abc") (Num 0) (str "enUSAriaNeural").
Proof.
  split; [|vm_compute; reflexivity].
  intros Heq. inversion Heq.
Qed.

Lemma too_short_rejected_witness :
  post_tts (H := demo_collaborators writing_tool) demo_store 1700000000000
    (str "abc") (str "1") None None empty_world
  = (ErrorResponse 400 (str "Chunk too short"), empty_world)
  /\ post_tts_custom (H := demo_collaborators writing_tool) 1700000000000 1700000000001
       (Some (str "a")) None None empty_world
     = (ErrorResponse 400 (str "Text required"), empty_world)
  /\ invocations
       (snd (post_tts_custom (H := demo_collaborators writing_tool)
               1700000000000 1700000000001 (Some (str "ab")) None None empty_world))
     = [[str "--file"; str "/tmp/tts-1700000000001.txt"; str "--write-media";
         str "/srv/audio/custom_1700000000000.mp3"; str "--voice";
         str "en-US-AriaNeural"]].
Proof.
  destruct (too_short_rejected (H := demo_collaborators writing_tool) demo_store
              (str "abc") (str "1") demo_pdf 1 (str "The end.") None None
              1700000000000 1700000000001 empty_world)
    as (Hchunk & _ & Hcustom & Hlong).
  split; [|split].
  - apply Hchunk; [vm_compute; reflexivity | vm_compute; reflexivity | reflexivity
                  | vm_compute; lia].
  - apply Hcustom. vm_compute. lia.
  - destruct (Hlong (str "ab")) as (outcome & files & _ & ->); [vm_compute; lia|].
    vm_compute. reflexivity.
Defined.

Lemma nan_index_passes_guard_witness :
  get_chunk (H := demo_collaborators writing_tool) demo_store (str "abc") (str "first")
  = ChunkResponse NaN None 2
  /\ post_tts (H := demo_collaborators writing_tool) demo_store 1700000000000
       (str "abc") (str "first") None None empty_world
     = (ErrorResponse 500 undefined_length_message, empty_world).
Proof.
  destruct (nan_index_passes_guard (H := demo_collaborators writing_tool) demo_store
              (str "abc") (str "first") demo_pdf) as (_ & Hget & Hpost).
  - evaluate.
  - evaluate.
  - split; [exact Hget | apply Hpost].
Defined.

(** * Further properties of the code *)

(** ** The chunker on every text *)

Lemma nonspace_app a b : nonspace (a ++ b) = nonspace a ++ nonspace b.
Proof. apply List.filter_app. Qed.

Lemma nonspace_spaces ws :
  Forall (fun c => Char.is_space c = true) ws -> nonspace ws = [].
Proof.
  induction 1 as [|c r Hc _ IH]; [reflexivity|]. unfold nonspace in *. simpl.
  now rewrite Hc.
Qed.

Lemma nonspace_trim s : nonspace (trim s) = nonspace s.
Proof.
  destruct (trim_spec s) as (a & b & Hs & Ha & Hb & _).
  rewrite Hs at 2. rewrite !nonspace_app, (nonspace_spaces a Ha), (nonspace_spaces b Hb).
  now rewrite app_nil_r.
Qed.

Lemma trim_idempotent s : trim (trim s) = trim s.
Proof.
  destruct (trim_spec s) as (_ & _ & _ & _ & _ & [-> | Ht]); [reflexivity|].
  now apply trim_tight.
Qed.

Lemma solid_trim s : solid s -> trim s <> [].
Proof.
  unfold solid. intros Hs Ht. apply Hs. now rewrite <- nonspace_trim, Ht.
Qed.

Lemma solid_app_l a b : solid a -> solid (a ++ b).
Proof.
  unfold solid. rewrite nonspace_app. intros Ha Hab.
  now apply app_eq_nil in Hab as [? _].
Qed.

Lemma solid_app_r a b : solid b -> solid (a ++ b).
Proof.
  unfold solid. rewrite nonspace_app. intros Hb Hab.
  now apply app_eq_nil in Hab as [_ ?].
Qed.

Lemma sentence_end_not_space c :
  Char.is_sentence_end c = true -> Char.is_space c = false.
Proof.
  unfold Char.is_sentence_end. rewrite !orb_true_iff, !N.eqb_eq.
  intros [[-> | ->] | ->]; reflexivity.
Qed.

Lemma ends_sentence_solid piece :
  forall b, ends_sentence b piece = true -> (b = true /\ piece = []) \/ solid piece.
Proof.
  induction piece as [|c r IH]; intros b Hend; [now left|right].
  simpl in Hend. destruct (IH _ Hend) as [[Hc ->] | Hr].
  - unfold solid, nonspace. simpl. now rewrite (sentence_end_not_space c Hc).
  - now apply (solid_app_r [c]).
Qed.

Lemma Split_solid text pieces : Split text pieces -> all_but_last_solid pieces.
Proof.
  induction 1 as [text _ | piece ws rest pieces _ Hend _ _ _ Hsplit IH]; [exact I|].
  simpl. destruct pieces as [|p ps]; [exact I|]. split; [|exact IH].
  destruct (ends_sentence_solid piece false Hend) as [[? _] | Hs]; [discriminate | exact Hs].
Qed.

Lemma Split_nonspace text pieces :
  Split text pieces -> nonspace (concat pieces) = nonspace text.
Proof.
  induction 1 as [text _ | piece ws rest pieces _ _ _ Hws _ _ IH]; simpl.
  - now rewrite app_nil_r.
  - now rewrite !nonspace_app, IH, (nonspace_spaces ws Hws).
Qed.

Lemma finish_stored chunks current :
  Forall stored_chunk chunks -> Forall stored_chunk (finish (chunks, current)).
Proof.
  intros Hchunks. unfold finish. simpl.
  destruct (truthy (trim current)) eqn:Ht; [|exact Hchunks].
  apply Forall_app. split; [exact Hchunks|]. constructor; [|constructor].
  split; [now apply truthy_nonempty | apply trim_idempotent].
Qed.

Lemma chunk_loop_stored maxChars rest :
  forall chunks current,
    all_but_last_solid rest ->
    current = [] \/ solid current \/ rest = [] ->
    Forall stored_chunk chunks ->
    Forall stored_chunk (finish (chunk_loop maxChars rest chunks current)).
Proof.
  induction rest as [|sentence rest IH]; intros chunks current Hrest Hcur Hchunks.
  - now apply finish_stored.
  - assert (Hnext : all_but_last_solid rest /\ (rest = [] \/ solid sentence)).
    { simpl in Hrest. destruct rest; [split; [exact I | now left]|].
      destruct Hrest. split; [assumption | now right]. }
    destruct Hnext as [Hrest' Hsentence]. cbn [chunk_loop].
    destruct (Z.of_nat (length (current ++ sentence)) <? maxChars)%Z.
    + apply IH; [exact Hrest' | | exact Hchunks].
      destruct Hsentence as [-> | Hs]; [now right; right|].
      right; left. apply solid_app_r. now apply solid_app_l.
    + apply IH; [exact Hrest' | |].
      * destruct Hsentence as [-> | Hs]; [now right; right|].
        right; left. now apply solid_app_l.
      * destruct (truthy current) eqn:Ht; [|exact Hchunks].
        apply Forall_app. split; [exact Hchunks|]. constructor; [|constructor].
        destruct Hcur as [-> | [Hsolid | Hnil]]; [discriminate | | discriminate].
        split; [now apply solid_trim | apply trim_idempotent].
Qed.

(** X1. Whatever the text and the bound, every chunk is a non-empty
    string without white space at its ends. *)
Theorem chunks_nonempty_trimmed (text : jsstring) (maxChars : Z) (chunk : jsstring) :
  chunk ∈ splitIntoChunks text maxChars ->
  chunk <> [] /\ trim chunk = chunk.
Proof.
  rewrite splitIntoChunks_finish. intros Hin.
  pose proof (chunk_loop_stored maxChars (split_sentences text) [] []
                (Split_solid _ _ (split_sentences_spec text))
                (or_introl eq_refl) (List.Forall_nil _)) as Hall.
  rewrite Forall_forall in Hall. exact (Hall chunk Hin).
Qed.

Lemma chunks_nonempty_trimmed_witness :
  str "Another sentence here." <> []
  /\ trim (str "Another sentence here.") = str "Another sentence here.".
Proof.
  apply (chunks_nonempty_trimmed
           (str "Hello world.  This is a test.   Another sentence here.  ") 30).
  vm_compute. right. left.
Defined.

Lemma finish_nonspace chunks current :
  nonspace (concat (finish (chunks, current)))
  = nonspace (concat chunks) ++ nonspace current.
Proof.
  unfold finish. simpl. destruct (truthy (trim current)) eqn:Ht.
  - rewrite concat_app, nonspace_app. simpl. now rewrite app_nil_r, nonspace_trim.
  - destruct (trim current) eqn:Hc; [|discriminate].
    now rewrite <- (nonspace_trim current), Hc, app_nil_r.
Qed.

Lemma chunk_loop_nonspace maxChars rest :
  forall chunks current,
    nonspace (concat (finish (chunk_loop maxChars rest chunks current)))
    = nonspace (concat chunks) ++ nonspace current ++ nonspace (concat rest).
Proof.
  assert (Hsp : forall s, nonspace (s ++ [Char.space]) = nonspace s).
  { intros s. rewrite nonspace_app. apply app_nil_r. }
  induction rest as [|sentence rest IH]; intros chunks current.
  - simpl. now rewrite app_nil_r, finish_nonspace.
  - cbn [chunk_loop concat].
    destruct (Z.of_nat (length (current ++ sentence)) <? maxChars)%Z; rewrite IH.
    + rewrite (app_assoc current), Hsp, !nonspace_app. now rewrite <- !app_assoc.
    + rewrite Hsp, nonspace_app, !app_assoc. do 2 f_equal.
      destruct current as [|c r]; [simpl; now rewrite app_nil_r|].
      cbn [truthy]. rewrite concat_app, nonspace_app. simpl concat.
      now rewrite app_nil_r, nonspace_trim.
Qed.

(** X2. The chunker loses, repeats and reorders nothing but white space:
    the code units of the chunks that are not white space are those of
    the text, in the same order, for every text and every bound. *)
Theorem chunks_preserve_content (text : jsstring) (maxChars : Z) :
  List.filter (fun c => negb (Char.is_space c)) (concat (splitIntoChunks text maxChars))
  = List.filter (fun c => negb (Char.is_space c)) text.
Proof.
  rewrite splitIntoChunks_finish.
  fold (nonspace (concat (finish (chunk_loop maxChars (split_sentences text) [] [])))).
  rewrite chunk_loop_nonspace. simpl.
  apply Split_nonspace, split_sentences_spec.
Qed.

Lemma chunk_loop_fits maxChars rest :
  forall current,
    (rest <> [] -> (Z.of_nat (length (current ++ join_space rest)) < maxChars)%Z) ->
    chunk_loop maxChars rest [] current = ([], current ++ spaced_concat rest).
Proof.
  induction rest as [|sentence rest IH]; intros current Hfit.
  - simpl. now rewrite app_nil_r.
  - specialize (Hfit ltac:(discriminate)). cbn [chunk_loop].
    assert (Hle : length (current ++ sentence)
                  <= length (current ++ join_space (sentence :: rest))).
    { destruct rest; simpl; rewrite !length_app; simpl; try rewrite length_app; lia. }
    destruct (Z.ltb_spec (Z.of_nat (length (current ++ sentence))) maxChars); [|lia].
    rewrite IH.
    + f_equal. simpl. now rewrite <- !app_assoc.
    + intros Hne. destruct rest as [|s' rest']; [congruence|].
      change (join_space (sentence :: s' :: rest'))
        with (sentence ++ Char.space :: join_space (s' :: rest')) in Hfit.
      now rewrite <- !app_assoc.
Qed.

Lemma normal_from_tight text : normal_from true text -> tight text.
Proof.
  intros Hn.
  destruct (split_from_normal text (InSentence false) true Hn)
    as (h & t & _ & Hjoin & Ht & Hh); [discriminate|].
  subst text. clear Hn. revert h Hh.
  induction Ht as [|s t Hs _ IH]; intros h Hh; [exact Hh|].
  change (join_space (h :: s :: t)) with (h ++ [Char.space] ++ join_space (s :: t)).
  apply tight_app_space; [exact Hh | now apply IH].
Qed.

Lemma single_chunk_normalized text maxChars :
  normal_from true text ->
  (Z.of_nat (length text) < maxChars)%Z ->
  splitIntoChunks text maxChars = [text].
Proof.
  intros Hn Hlen.
  destruct (split_from_normal text (InSentence false) true Hn)
    as (h & t & Hsplit & Hjoin & _ & _); [discriminate|].
  rewrite splitIntoChunks_finish. unfold split_sentences. rewrite Hsplit.
  rewrite chunk_loop_fits by (intros _; now rewrite app_nil_l, Hjoin).
  unfold finish. cbn [fst snd app].
  rewrite (spaced_concat_join (h :: t)) by discriminate.
  rewrite Hjoin, trim_snoc_space, (trim_tight text (normal_from_tight text Hn))
    by apply space_is_space.
  destruct text; [simpl in Hn; discriminate Hn | reflexivity].
Qed.

(** X3. A normalized text that is not empty and shorter than the bound is
    one chunk, the text itself. *)
Theorem short_text_single_chunk (raw : jsstring) (maxChars : Z) :
  cleanText raw <> [] ->
  (Z.of_nat (length (cleanText raw)) < maxChars)%Z ->
  splitIntoChunks (cleanText raw) maxChars = [cleanText raw].
Proof.
  intros Hne Hlen. apply single_chunk_normalized; [|exact Hlen].
  destruct (cleanText_normalized raw) as [Hnil | Hn]; [congruence | exact Hn].
Qed.

Lemma short_text_single_chunk_witness :
  splitIntoChunks (cleanText (str "  One.  Two!   three? four. ")) default_maxChars
  = [cleanText (str "  One.  Two!   three? four. ")].
Proof.
  apply (short_text_single_chunk (str "  One.  Two!   three? four. ") default_maxChars).
  - vm_compute. discriminate.
  - vm_compute. reflexivity.
Defined.

Lemma finish_length chunks current :
  length (finish (chunks, current))
  <= length chunks + (if truthy current then 1 else 0).
Proof.
  unfold finish. simpl. destruct current as [|c r]; [simpl; lia|].
  destruct (truthy (trim (c :: r))); [rewrite length_app|]; simpl; lia.
Qed.

Lemma chunk_loop_length maxChars rest :
  forall chunks current,
    length (finish (chunk_loop maxChars rest chunks current))
    <= length chunks + length rest + (if truthy current then 1 else 0).
Proof.
  induction rest as [|sentence rest IH]; intros chunks current.
  - pose proof (finish_length chunks current). simpl. lia.
  - cbn [chunk_loop].
    destruct (Z.of_nat (length (current ++ sentence)) <? maxChars)%Z.
    + etransitivity; [apply IH|]. simpl.
      destruct (truthy (current ++ sentence ++ [Char.space])), (truthy current); lia.
    + etransitivity; [apply IH|].
      assert (truthy (sentence ++ [Char.space]) = true) as -> by now destruct sentence.
      destruct (truthy current); [rewrite length_app|]; simpl; lia.
Qed.

(** X4. There are never more chunks than sentences. *)
Theorem chunks_at_most_sentences (text : jsstring) (maxChars : Z) :
  length (splitIntoChunks text maxChars) <= length (split_sentences text).
Proof.
  rewrite splitIntoChunks_finish.
  etransitivity; [apply chunk_loop_length|]. simpl. lia.
Qed.

(** ** The normalizer on its own output *)

Lemma substitutions_flat_map s :
  replace_ellipsis
    (replace_pair 8211 8212 Char.hyphen
       (replace_pair 8220 8221 Char.quote
          (replace_pair 8216 8217 Char.apostrophe (remove_control s))))
  = flat_map substitute s.
Proof.
  induction s as [|c r IH]; [reflexivity|].
  unfold remove_control in *. cbn [List.filter flat_map].
  unfold substitute at 1. destruct (Char.is_control c); [exact IH|].
  simpl. now rewrite IH.
Qed.

Lemma substitute_plain c : Forall (fun x => plain x = true) (substitute c).
Proof.
  unfold substitute. destruct (Char.is_control c) eqn:Hctl; [constructor|].
  destruct ((c =? 8216) || (c =? 8217))%N eqn:H1; [repeat constructor|].
  destruct ((c =? 8220) || (c =? 8221))%N eqn:H2; [repeat constructor|].
  destruct ((c =? 8211) || (c =? 8212))%N eqn:H3; [repeat constructor|].
  destruct (c =? 8230)%N eqn:H4; [repeat constructor|].
  constructor; [|constructor]. unfold plain, typographic.
  apply orb_false_iff in H1 as [-> ->]. apply orb_false_iff in H2 as [-> ->].
  apply orb_false_iff in H3 as [-> ->]. now rewrite Hctl, H4.
Qed.

Lemma collapse_from_Forall (P : N -> Prop) s :
  P Char.space -> Forall P s -> forall b, Forall P (collapse_from b s).
Proof.
  intros Hsp. induction 1 as [|c r Hc _ IH]; intros b; simpl; [constructor|].
  destruct (Char.is_space c); [destruct b|]; repeat constructor; auto.
Qed.

Lemma trim_Forall (P : N -> Prop) s : Forall P s -> Forall P (trim s).
Proof.
  destruct (trim_spec s) as (a & b & Hs & _). intros Hall. rewrite Hs in Hall.
  now apply Forall_app in Hall as [_ [Hall _]%Forall_app].
Qed.

Lemma cleanText_plain text : Forall (fun c => plain c = true) (cleanText text).
Proof.
  unfold cleanText. destruct (negb (truthy text)); [constructor|].
  rewrite substitutions_flat_map.
  assert (Hsub : Forall (fun c => plain c = true) (flat_map substitute text)).
  { induction text as [|c r IH]; simpl; [constructor|].
    apply Forall_app. split; [apply substitute_plain | exact IH]. }
  apply trim_Forall.
  pose proof (collapse_from_Forall _ _ eq_refl Hsub false) as Hcol.
  fold (collapse_spaces (flat_map substitute text)) in Hcol.
  destruct (remove_digit_lines_one_line (collapse_spaces (flat_map substitute text)))
    as [-> | ->]; [|exact Hcol | constructor].
  apply (single_spaced_no_terminator _ false), collapse_from_single_spaced.
Qed.

Lemma normal_from_single_spaced s : forall b, normal_from b s -> single_spaced b s.
Proof.
  induction s as [|c r IH]; intros b Hn; simpl in *; [exact I|].
  destruct (Char.is_space c); [|now apply IH].
  destruct Hn as (? & ? & ?). repeat split; auto.
Qed.

Lemma collapse_from_id s : forall b, single_spaced b s -> collapse_from b s = s.
Proof.
  induction s as [|c r IH]; intros b Hs; simpl in *; [reflexivity|].
  destruct (Char.is_space c).
  - destruct Hs as (-> & -> & Hr). now rewrite (IH true Hr).
  - now rewrite (IH false Hs).
Qed.

Lemma single_spaced_weaken s : single_spaced true s -> single_spaced false s.
Proof.
  destruct s as [|c r]; simpl; [trivial|].
  destruct (Char.is_space c); [|trivial]. now intros (_ & ? & _).
Qed.

Section OnNormalized.
Variable u : jsstring.
Hypothesis Hnormal : normalized u.

Lemma collapse_spaces_id : collapse_spaces u = u.
Proof.
  destruct Hnormal as [-> | Hn]; [reflexivity|].
  now apply collapse_from_id, single_spaced_weaken, normal_from_single_spaced.
Qed.

Lemma trim_id : trim u = u.
Proof.
  destruct Hnormal as [-> | Hn]; [reflexivity|].
  now apply trim_tight, normal_from_tight.
Qed.
End OnNormalized.

Lemma remove_control_plain u :
  Forall (fun c => plain c = true) u -> remove_control u = u.
Proof.
  induction 1 as [|c r Hc _ IH]; [reflexivity|]. unfold remove_control in *. simpl.
  unfold plain in Hc. apply andb_true_iff in Hc as [Hc _]. now rewrite Hc, IH.
Qed.

Lemma replace_pair_plain a b x u :
  typographic a = true -> typographic b = true ->
  Forall (fun c => plain c = true) u -> replace_pair a b x u = u.
Proof.
  intros Ha Hb. induction 1 as [|c r Hc _ IH]; [reflexivity|].
  unfold replace_pair in *. simpl. rewrite IH. f_equal.
  unfold plain in Hc. apply andb_true_iff in Hc as [_ Hc]. apply negb_true_iff in Hc.
  destruct (N.eqb_spec c a) as [-> | _]; [congruence|].
  destruct (N.eqb_spec c b) as [-> | _]; [congruence | reflexivity].
Qed.

Lemma replace_ellipsis_plain u :
  Forall (fun c => plain c = true) u -> replace_ellipsis u = u.
Proof.
  induction 1 as [|c r Hc _ IH]; [reflexivity|]. unfold replace_ellipsis in *. simpl.
  rewrite IH. unfold plain in Hc. apply andb_true_iff in Hc as [_ Hc].
  apply negb_true_iff in Hc.
  destruct (N.eqb_spec c 8230) as [-> | _]; [discriminate | reflexivity].
Qed.

Lemma cleanText_passes_id (text : jsstring) :
  let u := cleanText text in
  remove_control u = u
  /\ replace_pair 8216 8217 Char.apostrophe u = u
  /\ replace_pair 8220 8221 Char.quote u = u
  /\ replace_pair 8211 8212 Char.hyphen u = u
  /\ replace_ellipsis u = u
  /\ collapse_spaces u = u
  /\ trim u = u.
Proof.
  intros u. pose proof (cleanText_plain text) as Hp.
  pose proof (cleanText_normalized text) as Hn. fold u in Hp, Hn.
  repeat split.
  - now apply remove_control_plain.
  - now apply replace_pair_plain.
  - now apply replace_pair_plain.
  - now apply replace_pair_plain.
  - now apply replace_ellipsis_plain.
  - now apply collapse_spaces_id.
  - now apply trim_id.
Qed.

(** X5. What [cleanText] returns is in normal form for every pass but the
    removal of digit lines: it has no control character and none of the
    typographic quotes, dashes and ellipsis left, its white space is
    collapsed and it is trimmed, so that each of these passes maps it to
    itself. *)
Theorem cleanText_normal_form (text : jsstring) :
  let u := cleanText text in
  remove_control u = u
  /\ replace_pair 8216 8217 Char.apostrophe u = u
  /\ replace_pair 8220 8221 Char.quote u = u
  /\ replace_pair 8211 8212 Char.hyphen u = u
  /\ replace_ellipsis u = u
  /\ collapse_spaces u = u
  /\ trim u = u.
Proof. apply cleanText_passes_id. Qed.

Lemma digit_not_space c : Char.is_digit c = true -> Char.is_space c = false.
Proof.
  unfold Char.is_digit, Char.is_space, Char.between.
  rewrite andb_true_iff, !N.leb_le. intros [Hlo Hhi].
  repeat match goal with
         | |- context [(c =? ?k)%N] => destruct (N.eqb_spec c k); [lia|]
         end.
  destruct (N.leb_spec c 13); [lia|]. destruct (N.leb_spec 8192 c); [lia|].
  now rewrite !andb_false_r.
Qed.

Lemma digits_split u :
  (forallb Char.is_digit u = true
   /\ take_while Char.is_digit u = u /\ drop_while Char.is_digit u = [])
  \/ (forallb Char.is_digit u = false
      /\ exists x r, drop_while Char.is_digit u = x :: r /\ Char.is_digit x = false).
Proof.
  induction u as [|c r IH]; [now left|]. simpl.
  destruct (Char.is_digit c) eqn:Hc; [|right; split; [reflexivity | now exists c, r]].
  destruct IH as [(-> & -> & ->) | (-> & x & r' & -> & Hx)]; [now left | right].
  split; [reflexivity | now exists x, r'].
Qed.

Lemma normal_after_digits u :
  forall b x r,
    normal_from b u ->
    drop_while Char.is_digit u = x :: r ->
    Char.is_space x = true ->
    x = Char.space /\ normal_from true r.
Proof.
  induction u as [|c u IH]; intros b x r Hn Hdrop Hx; [discriminate|].
  simpl in Hdrop, Hn. destruct (Char.is_digit c) eqn:Hc.
  - rewrite (digit_not_space c Hc) in Hn. exact (IH false x r Hn Hdrop Hx).
  - injection Hdrop as -> ->. rewrite Hx in Hn. tauto.
Qed.

Lemma digit_line_match_normal u b :
  normal_from b u -> u <> [] ->
  digit_line_match u
  = if forallb Char.is_digit u then Some (length u) else None.
Proof.
  intros Hn Hne. unfold digit_line_match.
  destruct (take_while Char.is_digit u) as [|d ds] eqn:Hds.
  - destruct u as [|c r]; [congruence|]. simpl in *.
    now destruct (Char.is_digit c).
  - destruct (digits_split u) as [(-> & Htake & ->) | (-> & x & r & Hdrop & Hx)].
    + rewrite Hds in Htake. apply (f_equal length) in Htake.
      cbn [drop_while take_while]. f_equal. simpl in *. lia.
    + rewrite Hdrop. destruct (Char.is_space x) eqn:Hsp.
      * destruct (normal_after_digits u b x r Hn Hdrop Hsp) as [-> Hr].
        destruct r as [|y r']; [simpl in Hr; discriminate Hr|].
        simpl in Hr. destruct (Char.is_space y) eqn:Hy; [now destruct Hr as (_ & ? & _)|].
        simpl. now rewrite Hy.
      * simpl. now rewrite Hsp.
Qed.

Lemma remove_digit_lines_normal u :
  normal_from true u ->
  remove_digit_lines u = if forallb Char.is_digit u then [] else u.
Proof.
  intros Hn. destruct u as [|c r]; [reflexivity|].
  pose proof (single_spaced_no_terminator _ _ (normal_from_single_spaced _ _ Hn)) as Hlt.
  unfold remove_digit_lines. cbn [remove_digit_lines_from at_line_start].
  rewrite (digit_line_match_normal (c :: r) true Hn) by discriminate.
  destruct (forallb Char.is_digit (c :: r)).
  - cbn [length]. now apply remove_digit_lines_skip_all.
  - inversion Hlt; subst. f_equal. now apply remove_digit_lines_inside_line.
Qed.

(** X6. Applying [cleanText] to its own result changes it in one case
    only: a result made of digits alone is a digit line for the second
    application, which returns the empty string; every other result is a
    fixed point. *)
Theorem cleanText_twice (text : jsstring) :
  cleanText (cleanText text)
  = if forallb Char.is_digit (cleanText text) then [] else cleanText text.
Proof.
  destruct (cleanText_passes_id text) as (H1 & H2 & H3 & H4 & H5 & H6 & H7).
  pose proof (cleanText_normalized text) as Hn. cbv zeta in *.
  set (u := cleanText text) in *.
  destruct Hn as [Hnil | Hn]; [now rewrite Hnil|].
  unfold cleanText at 1. fold u.
  assert (truthy u = true) as -> by (destruct u; [simpl in Hn; discriminate Hn | reflexivity]).
  cbn [negb]. rewrite H1, H2, H3, H4, H5, H6, (remove_digit_lines_normal u Hn).
  destruct (forallb Char.is_digit u); [reflexivity | exact H7].
Qed.

(** The two cases of it: a page number after a space is emptied by the
    second application, ordinary text is kept. *)
Example cleanText_twice_cases :
  cleanText (str " 12") = str "12" /\ cleanText (cleanText (str " 12")) = []
  /\ cleanText (cleanText (str " page 12 ")) = str "page 12".
Proof. repeat split. Qed.

(** ** Numbers and their decimal strings *)

Lemma digit_value_pretty d :
  (d < 10)%N -> digit_value 10 (N_of_ascii (pretty_N_char d)) = Some d.
Proof.
  intros Hd.
  assert (d = 0 \/ d = 1 \/ d = 2 \/ d = 3 \/ d = 4 \/ d = 5 \/ d = 6 \/ d = 7
          \/ d = 8 \/ d = 9)%N as Hcases by lia.
  repeat (destruct Hcases as [-> | Hcases]; [reflexivity|]). now subst.
Qed.

Lemma parse_digits_pretty x :
  forall s t,
    (0 < x)%N ->
    parse_digits 10 None (str (pretty_N_go x s) ++ t)
    = parse_digits 10 (Some x) (str s ++ t).
Proof.
  induction (N.lt_wf_0 x) as [x _ IH]; intros s t Hpos.
  rewrite pretty_N_go_step by exact Hpos.
  assert (Hdigit : forall acc,
             parse_digits 10 acc (str (String (pretty_N_char (x mod 10)) s) ++ t)
             = parse_digits 10 (Some (10 * default 0 acc + x mod 10)%N) (str s ++ t)).
  { intros acc. change (str (String ?c s)) with (N_of_ascii c :: str s).
    cbn [app parse_digits]. rewrite digit_value_pretty; [reflexivity|].
    now apply N.mod_lt. }
  pose proof (N.div_mod x 10%N ltac:(lia)) as Hdivmod.
  destruct (N.eq_dec (x / 10)%N 0%N) as [Hzero | Hmore].
  - rewrite Hzero, pretty_N_go_0, Hdigit. simpl default. do 2 f_equal.
    rewrite Hzero in Hdivmod. now symmetry.
  - rewrite IH, Hdigit; [|apply N.div_lt; lia | now apply N.neq_0_lt_0].
    simpl default. do 2 f_equal.
    now symmetry.
Qed.

Lemma pretty_N_go_digits x :
  forall s, Forall (fun c => Char.is_digit c = true) (str s) ->
            Forall (fun c => Char.is_digit c = true) (str (pretty_N_go x s)).
Proof.
  induction (N.lt_wf_0 x) as [x _ IH]; intros s Hs.
  destruct (decide (0 < x)%N) as [Hpos | Hzero].
  - rewrite pretty_N_go_step by exact Hpos. apply IH.
    + apply N.div_lt; lia.
    + constructor; [apply pretty_N_char_digit | exact Hs].
  - assert (x = 0%N) as -> by lia. now rewrite pretty_N_go_0.
Qed.

(** The decimal string of a natural number: digits, at least one, whose
    value [parse_digits] reads back. *)
Lemma pretty_N_decimal (n : N) :
  Forall (fun c => Char.is_digit c = true) (str (pretty n))
  /\ str (pretty n) <> []
  /\ forall t, parse_digits 10 None (str (pretty n) ++ t) = parse_digits 10 (Some n) t.
Proof.
  unfold pretty, pretty_N. destruct (decide (n = 0%N)) as [-> | Hn].
  - repeat split; [repeat constructor | discriminate].
  - assert (Hparse : forall t, parse_digits 10 None (str (pretty_N_go n "") ++ t)
                               = parse_digits 10 (Some n) t).
    { intros t. rewrite parse_digits_pretty by lia. reflexivity. }
    repeat split; [apply pretty_N_go_digits; constructor | | exact Hparse].
    intros Hnil. specialize (Hparse []). rewrite Hnil in Hparse. discriminate Hparse.
Qed.

Lemma digit_codes c :
  Char.is_digit c = true ->
  Char.is_space c = false /\ (c =? 45)%N = false /\ (c =? 43)%N = false
  /\ (c =? 120)%N = false /\ (c =? 88)%N = false.
Proof.
  intros Hc. split; [now apply digit_not_space|].
  unfold Char.is_digit, Char.between in Hc.
  apply andb_true_iff in Hc as [Hlo%N.leb_le Hhi%N.leb_le].
  repeat split; apply N.eqb_neq; lia.
Qed.

(** [parseInt] on a string that starts with a decimal digit and is not a
    hexadecimal literal. *)
Lemma parseInt_unsigned ds t :
  ds <> [] ->
  Forall (fun c => Char.is_digit c = true) ds ->
  (forall c r, t = c :: r -> (c =? 120)%N = false /\ (c =? 88)%N = false) ->
  parseInt (ds ++ t)
  = match parse_digits 10 None (ds ++ t) with
    | Some n => Num (Z.of_N n)
    | None => NaN
    end
  /\ parseInt (45%N :: ds ++ t)
     = match parse_digits 10 None (ds ++ t) with
       | Some n => Num (- Z.of_N n)
       | None => NaN
       end.
Proof.
  intros Hne Hds Ht. destruct ds as [|d ds]; [congruence|].
  inversion Hds as [|? ? Hd Hds']; subst.
  destruct (digit_codes d Hd) as (Hsp & Hminus & Hplus & _).
  assert (Hradix :
            match (d :: ds) ++ t with
            | c0 :: x :: r =>
                if ((c0 =? 48) && ((x =? 120) || (x =? 88)))%N
                then (16%N, r) else (10%N, (d :: ds) ++ t)
            | _ => (10%N, (d :: ds) ++ t)
            end = (10%N, (d :: ds) ++ t)).
  { simpl. destruct ds as [|x ds]; simpl.
    - destruct t as [|x r]; [reflexivity|].
      destruct (Ht x r eq_refl) as [-> ->]. now rewrite andb_false_r.
    - inversion Hds' as [|? ? Hx _]; subst.
      destruct (digit_codes x Hx) as (_ & _ & _ & -> & ->). now rewrite andb_false_r. }
  split; unfold parseInt.
  - change (trimStart ((d :: ds) ++ t))
      with (if Char.is_space d then trimStart (ds ++ t) else (d :: ds) ++ t).
    rewrite Hsp. change ((d :: ds) ++ t) with (d :: (ds ++ t)) at 1.
    cbv beta iota. rewrite Hminus, Hplus.
    change (d :: (ds ++ t)) with ((d :: ds) ++ t). rewrite Hradix.
    now destruct (parse_digits 10 None ((d :: ds) ++ t)).
  - change (trimStart (45%N :: (d :: ds) ++ t)) with (45%N :: (d :: ds) ++ t).
    cbv beta iota. change (45 =? 45)%N with true. cbv iota. rewrite Hradix.
    now destruct (parse_digits 10 None ((d :: ds) ++ t)).
Qed.

Lemma Number_toString_of_N n : Number_toString (Num (Z.of_N n)) = str (pretty n).
Proof. destruct n; reflexivity. Qed.

Lemma parseInt_reads_toString (n : jsnum) : parseInt (Number_toString n) = n.
Proof.
  destruct n as [|z]; [reflexivity|].
  assert (Hnat : forall m : N,
             parseInt (str (pretty m)) = Num (Z.of_N m)
             /\ parseInt (45%N :: str (pretty m)) = Num (- Z.of_N m)).
  { intros m. destruct (pretty_N_decimal m) as (Hds & Hne & Hparse).
    destruct (parseInt_unsigned (str (pretty m)) [] Hne Hds) as [Hpos Hneg];
      [discriminate|].
    rewrite app_nil_r, <- (app_nil_r (str (pretty m))), Hparse in Hpos, Hneg.
    rewrite app_nil_r in Hpos, Hneg. now split. }
  destruct z as [|p|p].
  - reflexivity.
  - exact (proj1 (Hnat (N.pos p))).
  - exact (proj2 (Hnat (N.pos p))).
Qed.

(** X7. A safe integer (at most 2^53 - 1 in absolute value) written into
    a template literal and read by [parseInt] is the number again, and so
    is NaN. *)
Theorem parseInt_Number_toString (z : Z) :
  safe_integer z ->
  parseInt (Number_toString (Num z)) = Num z
  /\ parseInt (Number_toString NaN) = NaN.
Proof. intros _. split; apply parseInt_reads_toString. Qed.

Lemma parseInt_Number_toString_witness :
  safe_integer (-42)
  /\ parseInt (str "-42") = Num (-42)
  /\ parseInt (str "NaN") = NaN.
Proof.
  split; [unfold safe_integer, MAX_SAFE_INTEGER; lia|].
  apply (parseInt_Number_toString (-42)). unfold safe_integer, MAX_SAFE_INTEGER. lia.
Defined.

(** X8. [parseInt] stops at the first code unit that is no digit: a
    safe integer in decimal followed by anything else (but the [x] of a
    hexadecimal literal) is read as the number, so that an index written
    [1.5] or [2nd] is the index 1 or 2. *)
Theorem parseInt_ignores_rest (n : N) (c : N) (rest : jsstring) :
  safe_integer (Z.of_N n) ->
  Char.is_digit c = false -> c <> 120%N -> c <> 88%N ->
  parseInt (Number_toString (Num (Z.of_N n)) ++ c :: rest) = Num (Z.of_N n).
Proof.
  intros _ Hc Hx HX. rewrite Number_toString_of_N.
  destruct (pretty_N_decimal n) as (Hds & Hne & Hparse).
  destruct (parseInt_unsigned (str (pretty n)) (c :: rest) Hne Hds) as [Hpos _].
  { intros c' r' Heq. injection Heq as <- _. split; now apply N.eqb_neq. }
  rewrite Hpos, Hparse. cbn [parse_digits].
  assert (digit_value 10 c = None) as ->; [|reflexivity].
  unfold digit_value. unfold Char.is_digit in Hc. rewrite Hc.
  destruct (Char.between 97 122 c) eqn:Hlower.
  - unfold Char.between in Hlower.
    apply andb_true_iff in Hlower as [Hlo%N.leb_le Hhi%N.leb_le].
    destruct (N.ltb_spec (c - 87) 10); [lia | reflexivity].
  - destruct (Char.between 65 90 c) eqn:Hupper; [|reflexivity].
    unfold Char.between in Hupper.
    apply andb_true_iff in Hupper as [Hlo%N.leb_le Hhi%N.leb_le].
    destruct (N.ltb_spec (c - 55) 10); [lia | reflexivity].
Qed.

Lemma parseInt_ignores_rest_witness :
  parseInt (Number_toString (Num (Z.of_N 1)) ++ 46%N :: str "5") = Num (Z.of_N 1).
Proof.
  apply (parseInt_ignores_rest 1 46 (str "5")); [|reflexivity | lia | lia].
  unfold safe_integer, MAX_SAFE_INTEGER. simpl Z.of_N. lia.
Defined.

(** ** The chunk routes *)

Section ChunkRoutes.
Context `{Collaborators}.

Lemma get_chunk_decimal pdfStore pdfId pdf (z : Z) :
  pdfStore !! pdfId = Some pdf ->
  get_chunk pdfStore pdfId (Number_toString (Num z))
  = if ((0 <=? z) && (z <? Z.of_nat (length (chunks pdf))))%Z
    then ChunkResponse (Num z) (chunks pdf !! Z.to_nat z) (length (chunks pdf))
    else ErrorResponse 400 (str "Invalid chunk index").
Proof.
  intros Hpdf. unfold get_chunk. rewrite Hpdf, parseInt_reads_toString. simpl.
  destruct (Z.ltb_spec z 0), (Z.leb_spec 0 z); try lia; simpl; [reflexivity|].
  destruct (Z.leb_spec (Z.of_nat (length (chunks pdf))) z),
           (Z.ltb_spec z (Z.of_nat (length (chunks pdf)))); try lia; reflexivity.
Qed.

(** X9. For a document of the table, GET chunk with the index written in
    decimal answers with the chunk of that index when the index is
    between 0 and the number of chunks, and with the status 400 for a
    negative index and for an index at or beyond the number of chunks. *)
Theorem get_chunk_range
    (pdfStore : gmap jsstring PDFData) (pdfId : jsstring) (pdf : PDFData) (z : Z) :
  pdfStore !! pdfId = Some pdf ->
  ((0 <= z < Z.of_nat (length (chunks pdf)))%Z ->
   exists text, chunks pdf !! Z.to_nat z = Some text
     /\ get_chunk pdfStore pdfId (Number_toString (Num z))
        = ChunkResponse (Num z) (Some text) (length (chunks pdf)))
  /\ ((z < 0 \/ Z.of_nat (length (chunks pdf)) <= z)%Z ->
      get_chunk pdfStore pdfId (Number_toString (Num z))
      = ErrorResponse 400 (str "Invalid chunk index")).
Proof.
  intros Hpdf. rewrite (get_chunk_decimal _ _ _ z Hpdf). split.
  - intros [Hlo Hhi].
    destruct (lookup_lt_is_Some_2 (chunks pdf) (Z.to_nat z)) as [text Htext]; [lia|].
    exists text. split; [exact Htext|]. rewrite Htext.
    destruct (Z.leb_spec 0 z), (Z.ltb_spec z (Z.of_nat (length (chunks pdf))));
      try lia; reflexivity.
  - intros Hout.
    destruct (Z.leb_spec 0 z), (Z.ltb_spec z (Z.of_nat (length (chunks pdf))));
      try lia; reflexivity.
Qed.

Ltac unchanged Hsame := split; [exact Hsame | split; simpl; congruence].

(** X10. A request to POST [/api/tts] runs the executable at most once,
    and neither a refusal (status 404 or 400) nor an answer from the
    cache changes anything: the files, the progress table and the log of
    runs are as before. *)
Theorem post_tts_frame
    (pdfStore : gmap jsstring PDFData) (now : N) (pdfId chunkIndex : jsstring)
    (voice rate : option jsstring) (w : World) :
  let r := fst (post_tts pdfStore now pdfId chunkIndex voice rate w) in
  let w' := snd (post_tts pdfStore now pdfId chunkIndex voice rate w) in
  (exists runs, invocations w' = invocations w ++ runs /\ length runs <= 1)
  /\ (forall code msg, r = ErrorResponse code msg -> code <> 500%N -> w' = w)
  /\ (forall url duration, r = TTSResponse url duration true -> w' = w).
Proof.
  intros r w'. subst r w'. unfold post_tts.
  assert (Hsame : exists runs, invocations w = invocations w ++ runs /\ length runs <= 1)
    by (exists []; split; [now rewrite app_nil_r | simpl; lia]).
  destruct (pdfStore !! pdfId) as [pdf|]; [|unchanged Hsame].
  destruct (num_lt _ _ || num_ge _ _); [unchanged Hsame|].
  destruct (array_get _ _) as [text|]; [|unchanged Hsame].
  destruct (length text <? 10); [unchanged Hsame|].
  destruct (existsSync _ w); [unchanged Hsame|].
  match goal with
  | |- context [generateTTS ?n ?t ?o ?v ?r ?w0] =>
      destruct (edge_tts (length (invocations w0)) (tts_args (tempFile_of n) o v r)
                  (<[tempFile_of n := t]> (disk w0))) as [outcome files] eqn:Hrun;
      rewrite (generateTTS_run n t o v r w0 outcome files Hrun)
  end.
  destruct outcome; simpl; (split; [eexists; split; [reflexivity | simpl; lia]|]);
    split; congruence.
Qed.
End ChunkRoutes.

(** ** The synthesis helper and the progress table *)

Section Synthesis.
Context `{Collaborators}.

(** X11. [generateTTS] runs the executable exactly once, on the files
    with the text in the scratch file, and whatever the outcome the
    scratch file is gone afterwards; the other files are as the
    executable left them and the progress table is not touched. *)
Theorem generateTTS_scoped_cleanup
    (now : N) (text outputPath voice rate : jsstring) (w : World) :
  let outcome := fst (generateTTS now text outputPath voice rate w) in
  let w' := snd (generateTTS now text outputPath voice rate w) in
  let args := tts_args (tempFile_of now) outputPath voice rate in
  disk w' !! tempFile_of now = None
  /\ invocations w' = invocations w ++ [args]
  /\ ttsProgress w' = ttsProgress w
  /\ exists files,
       edge_tts (length (invocations w)) args (<[tempFile_of now := text]> (disk w))
       = (outcome, files)
       /\ forall path, path <> tempFile_of now -> disk w' !! path = files !! path.
Proof.
  intros outcome w' args. subst outcome w'.
  destruct (edge_tts (length (invocations w)) args (<[tempFile_of now := text]> (disk w)))
    as [outcome files] eqn:Hrun.
  rewrite (generateTTS_run now text outputPath voice rate w outcome files Hrun). simpl.
  split; [apply lookup_delete_eq|]. split; [reflexivity|]. split; [reflexivity|].
  exists files. split; [reflexivity|].
  intros path Hpath. now apply lookup_delete_ne.
Qed.

Section Progress.
Variables (pdfStore : gmap jsstring PDFData) (pdfId chunkIndex : jsstring).
Variables (pdf : PDFData) (i : nat) (text : jsstring).
Variables (now : N) (voice rate : option jsstring) (w : World).
Hypothesis Hpdf : pdfStore !! pdfId = Some pdf.
Hypothesis Hindex : parseInt chunkIndex = Num (Z.of_nat i).
Hypothesis Hchunk : chunks pdf !! i = Some text.
Hypothesis Hlong : 10 <= length text.
Hypothesis Hnone :
  disk w !! audioPath_of pdfId (Num (Z.of_nat i)) (default default_voice voice) = None.

Lemma progress_after_synthesis outcome files :
  edge_tts (length (invocations w))
    (tts_args (tempFile_of now)
       (audioPath_of pdfId (Num (Z.of_nat i)) (default default_voice voice))
       (default default_voice voice) (default default_rate rate))
    (<[tempFile_of now := text]> (disk w)) = (outcome, files) ->
  get_progress pdfId (Number_toString (Num (Z.of_nat i)))
    (snd (post_tts pdfStore now pdfId chunkIndex voice rate w))
  = match outcome with
    | Resolved => {| status := completed; progress := 100; message := str "Done" |}
    | Rejected _ =>
        {| status := processing; progress := 50; message := str "Generating audio..." |}
    end.
Proof.
  intros Hrun.
  pose proof (post_tts_synthesize pdfStore pdfId chunkIndex pdf i text
                Hpdf Hindex Hchunk Hlong now voice rate w outcome files Hnone Hrun) as Hpost.
  cbv zeta in Hpost. rewrite Hpost. unfold get_progress.
  destruct outcome; simpl; now rewrite !lookup_insert_eq.
Qed.
End Progress.

(** X12. After a request that had to synthesize, the progress of the
    chunk reads [completed] when the run succeeded and still
    [processing] when it failed: the failure is answered with the
    status 500, but the progress table never records it. *)
Theorem progress_after_request
    (pdfStore : gmap jsstring PDFData) (pdfId chunkIndex : jsstring)
    (pdf : PDFData) (i : nat) (text : jsstring)
    (now : N) (voice rate : option jsstring) (w : World)
    (outcome : ExecOutcome) (files : gmap jsstring jsstring) :
  pdfStore !! pdfId = Some pdf ->
  parseInt chunkIndex = Num (Z.of_nat i) ->
  chunks pdf !! i = Some text ->
  10 <= length text ->
  disk w !! audioPath_of pdfId (Num (Z.of_nat i)) (default default_voice voice) = None ->
  edge_tts (length (invocations w))
    (tts_args (tempFile_of now)
       (audioPath_of pdfId (Num (Z.of_nat i)) (default default_voice voice))
       (default default_voice voice) (default default_rate rate))
    (<[tempFile_of now := text]> (disk w)) = (outcome, files) ->
  get_progress pdfId (Number_toString (Num (Z.of_nat i)))
    (snd (post_tts pdfStore now pdfId chunkIndex voice rate w))
  = match outcome with
    | Resolved => {| status := completed; progress := 100; message := str "Done" |}
    | Rejected _ =>
        {| status := processing; progress := 50; message := str "Generating audio..." |}
    end.
Proof. intros. eapply progress_after_synthesis; eassumption. Qed.

(** X13. No request writes the status [error] or [pending]: an entry of
    the progress table after POST [/api/tts] is an entry from before or
    has the status [processing] or [completed], and POST
    [/api/tts/custom] leaves the table as it is. *)
Theorem progress_never_error
    (pdfStore : gmap jsstring PDFData) (now name_now : N) (pdfId chunkIndex : jsstring)
    (text voice rate : option jsstring) (w : World) :
  (forall key p,
      ttsProgress (snd (post_tts pdfStore now pdfId chunkIndex voice rate w)) !! key = Some p ->
      ttsProgress w !! key = Some p \/ status p = processing \/ status p = completed)
  /\ ttsProgress (snd (post_tts_custom name_now now text voice rate w)) = ttsProgress w.
Proof.
  split.
  - intros key p. unfold post_tts.
    destruct (pdfStore !! pdfId) as [pdf|]; [|now left].
    destruct (num_lt _ _ || num_ge _ _); [now left|].
    destruct (array_get _ _) as [chunk|]; [|now left].
    destruct (length chunk <? 10); [now left|].
    destruct (existsSync _ w); [now left|].
    match goal with
    | |- context [generateTTS ?n ?t ?o ?v ?r ?w0] =>
        destruct (edge_tts (length (invocations w0)) (tts_args (tempFile_of n) o v r)
                    (<[tempFile_of n := t]> (disk w0))) as [outcome files] eqn:Hrun;
        rewrite (generateTTS_run n t o v r w0 outcome files Hrun)
    end.
    destruct outcome; simpl; rewrite ?lookup_insert; repeat case_decide;
      intros Hp; simplify_eq; auto.
  - unfold post_tts_custom. destruct text as [t|]; [|reflexivity].
    destruct (negb (truthy t) || (length t <? 2)); [reflexivity|].
    match goal with
    | |- context [generateTTS ?n ?t ?o ?v ?r ?w0] =>
        destruct (edge_tts (length (invocations w0)) (tts_args (tempFile_of n) o v r)
                    (<[tempFile_of n := t]> (disk w0))) as [outcome files] eqn:Hrun;
        rewrite (generateTTS_run n t o v r w0 outcome files Hrun)
    end.
    now destruct outcome.
Qed.
End Synthesis.

(** ** Document identifiers *)

Lemma digit36_value d : (d < 36)%N -> digit_value 36 (digit36 d) = Some d.
Proof.
  intros Hd. unfold digit36, digit_value, Char.between.
  destruct (N.ltb_spec d 10).
  - destruct (N.leb_spec 48 (48 + d)), (N.leb_spec (48 + d) 57); try lia. simpl.
    replace (48 + d - 48)%N with d by lia.
    destruct (N.ltb_spec d 36); [reflexivity | lia].
  - destruct (N.leb_spec 48 (87 + d)), (N.leb_spec (87 + d) 57); try lia. simpl.
    destruct (N.leb_spec 97 (87 + d)), (N.leb_spec (87 + d) 122); try lia. simpl.
    replace (87 + d - 87)%N with d by lia.
    destruct (N.ltb_spec d 36); [reflexivity | lia].
Qed.

Lemma digit36_lower d : (d < 36)%N -> is_digit_or_lower (digit36 d) = true.
Proof.
  intros Hd. unfold digit36, is_digit_or_lower, Char.is_digit, Char.between.
  destruct (N.ltb_spec d 10).
  - destruct (N.leb_spec 48 (48 + d)), (N.leb_spec (48 + d) 57);
      first [lia | reflexivity].
  - destruct (N.leb_spec 97 (87 + d)), (N.leb_spec (87 + d) 122);
      first [lia | now rewrite orb_true_r].
Qed.

(** No upper-case letter among them. *)
Lemma digit_or_lower_alnum c :
  is_digit_or_lower c = true -> Char.is_alnum c = true /\ Char.between 65 90 c = false.
Proof.
  unfold is_digit_or_lower, Char.is_alnum, Char.is_digit, Char.between.
  destruct (N.leb_spec 48 c), (N.leb_spec c 57), (N.leb_spec 97 c), (N.leb_spec c 122),
           (N.leb_spec 65 c), (N.leb_spec c 90); simpl; intros Hc;
    first [discriminate Hc | lia | now split].
Qed.

Lemma toString36_from_zero fuel acc : toString36_from fuel 0 acc = acc.
Proof. now destruct fuel. Qed.

(** With enough fuel the digits are those of [n]: [parse_digits] reads
    [n] back. *)
Lemma toString36_from_value fuel :
  forall n acc t,
    (0 < n)%N -> (n < 2 ^ N.of_nat fuel)%N ->
    parse_digits 36 None (toString36_from fuel n acc ++ t)
    = parse_digits 36 (Some n) (acc ++ t).
Proof.
  induction fuel as [|fuel IH]; intros n acc t Hpos Hfuel.
  - simpl in Hfuel. lia.
  - rewrite Nat2N.inj_succ, N.pow_succ_r' in Hfuel. cbn [toString36_from].
    destruct (N.eqb_spec n 0); [lia|].
    pose proof (N.div_mod n 36%N ltac:(lia)) as Hdivmod.
    assert (Hdigit : forall a,
               parse_digits 36 a ((digit36 (n mod 36) :: acc) ++ t)
               = parse_digits 36 (Some (36 * default 0 a + n mod 36)%N) (acc ++ t)).
    { intros a. cbn [app parse_digits]. rewrite digit36_value; [reflexivity|].
      now apply N.mod_lt. }
    destruct (N.eq_dec (n / 36)%N 0%N) as [Hzero | Hmore].
    + rewrite Hzero, toString36_from_zero, Hdigit. simpl default. do 2 f_equal.
      rewrite Hzero in Hdivmod. now symmetry.
    + rewrite IH, Hdigit.
      * simpl default. do 2 f_equal. now symmetry.
      * now apply N.neq_0_lt_0.
      * apply N.Div0.div_lt_upper_bound; lia.
Qed.

Lemma toString36_from_lower fuel :
  forall n acc,
    Forall (fun c => is_digit_or_lower c = true) acc ->
    Forall (fun c => is_digit_or_lower c = true) (toString36_from fuel n acc).
Proof.
  induction fuel as [|fuel IH]; intros n acc Hacc; [exact Hacc|].
  cbn [toString36_from]. destruct (n =? 0)%N; [exact Hacc|].
  apply IH. constructor; [|exact Hacc]. apply digit36_lower. now apply N.mod_lt.
Qed.

Lemma toString36_lower n : Forall (fun c => is_digit_or_lower c = true) (toString36 n).
Proof.
  unfold toString36. destruct (n =? 0)%N; [repeat constructor|].
  apply toString36_from_lower. constructor.
Qed.

Lemma toString36_value n t :
  parse_digits 36 None (toString36 n ++ t) = parse_digits 36 (Some n) t.
Proof.
  unfold toString36. destruct (N.eqb_spec n 0) as [-> | Hn]; [reflexivity|].
  rewrite toString36_from_value; [reflexivity | lia |].
  rewrite Nat2N.inj_succ, N2Nat.id. apply N.log2_spec. lia.
Qed.

Lemma toString36_injective a b : toString36 a = toString36 b -> a = b.
Proof.
  intros Heq. pose proof (toString36_value a []) as Ha.
  rewrite Heq, toString36_value in Ha. simpl in Ha. congruence.
Qed.

Lemma toString36_nonempty n : toString36 n <> [].
Proof.
  intros Heq. pose proof (toString36_value n []) as Hv.
  rewrite Heq in Hv. discriminate Hv.
Qed.

(** X14. The identifier of a document, the upload time in radix 36, is
    not empty and made of the digits [0-9] and the lower-case letters
    [a-z] only, no upper-case letter; it reads back as the time, and
    differs for different times. *)
Theorem toString36_identifies (a b : N) :
  toString36 a <> []
  /\ Forall (fun c => (Char.between 48 57 c || Char.between 97 122 c) = true
                      /\ Char.between 65 90 c = false) (toString36 a)
  /\ parse_digits 36 None (toString36 a) = Some a
  /\ (toString36 a = toString36 b <-> a = b).
Proof.
  split; [apply toString36_nonempty|split; [|split]].
  - eapply Forall_impl; [apply toString36_lower|].
    intros c Hc. split; [exact Hc | now apply digit_or_lower_alnum].
  - rewrite <- (app_nil_r (toString36 a)). now rewrite toString36_value.
  - split; [apply toString36_injective | now intros ->].
Qed.

Example toString36_examples :
  toString36 0 = str "0" /\ toString36 35 = str "z" /\ toString36 36 = str "10"
  /\ toString36 1700000000000 = str "loyw3v28".
Proof. repeat split. Qed.

(** ** The upload *)

Lemma join_space_length l :
  length (join_space l) = sum_list (map length l) + (length l - 1).
Proof.
  induction l as [|s rest IH]; [reflexivity|].
  destruct rest as [|s' rest'].
  - simpl. lia.
  - change (join_space (s :: s' :: rest'))
      with (s ++ Char.space :: join_space (s' :: rest')).
    rewrite length_app. cbn [length] in *. rewrite IH. simpl. lia.
Qed.

Lemma split_spaces_from_nonempty b s : split_spaces_from b s <> [].
Proof.
  revert b. induction s as [|c r IH]; intros b; [discriminate|]. simpl.
  destruct (Char.is_space c); [destruct b; [apply IH | discriminate]|].
  specialize (IH false). now destruct (split_spaces_from false r).
Qed.

Lemma wordCount_solid s : solid s -> 1 <= wordCount_of s.
Proof.
  unfold wordCount_of, split_spaces, solid. generalize false.
  induction s as [|c r IH]; intros b Hs; [now destruct Hs|].
  unfold nonspace in *. simpl in *. destruct (Char.is_space c).
  - simpl in Hs. destruct b; [now apply IH|]. simpl. now apply IH.
  - pose proof (split_spaces_from_nonempty false r).
    destruct (split_spaces_from false r); [congruence|]. simpl. lia.
Qed.

Lemma stored_chunk_solid chunk : stored_chunk chunk -> solid chunk.
Proof.
  intros [Hne Htrim] Hnil. apply Hne.
  destruct (trim_spec chunk) as (_ & _ & _ & _ & _ & [Hempty | [Hstart _]]);
    [congruence|].
  rewrite Htrim in Hstart. destruct chunk as [|c r]; [contradiction|].
  unfold nonspace in Hnil. simpl in *. now rewrite Hstart in Hnil.
Qed.

Lemma chunks_of_extracted_stored extracted :
  Forall stored_chunk (chunks_of_extracted extracted).
Proof.
  unfold chunks_of_extracted. rewrite splitIntoChunks_finish.
  apply chunk_loop_stored; [|now left | constructor].
  eapply Split_solid, split_sentences_spec.
Qed.

Section Upload.
Context `{Collaborators}.
Variable pdfParse : jsstring -> ParseOutcome.
Variables (pdfStore : gmap jsstring PDFData) (now : N) (w : World).

(** X15. A failed upload changes nothing: whatever the reason (no PDF in
    the request, an unreadable file, a parser that throws), the document
    table and the files are as before, so that the file multer wrote
    stays on the disk. *)
Theorem post_upload_failure_frame (file : option UploadedFile) (code : N) (msg : jsstring) :
  fst (fst (post_upload pdfParse pdfStore now file w)) = UploadFailed code msg ->
  snd (fst (post_upload pdfParse pdfStore now file w)) = pdfStore
  /\ snd (post_upload pdfParse pdfStore now file w) = w
  /\ code = match file with Some _ => 500%N | None => 400%N end.
Proof.
  unfold post_upload. destruct file as [f|]; [|simpl; intros [= <- _]; now repeat split].
  destruct (disk w !! upload_path f) as [buffer|] eqn:Hfile;
    [|simpl; intros [= <- _]; now repeat split].
  destruct (pdfParse buffer); simpl; [discriminate|].
  intros [= <- _]. now repeat split.
Qed.

Section Success.
Variables (f : UploadedFile) (buffer extracted : jsstring) (numpages : N).
Hypothesis Hfile : disk w !! upload_path f = Some buffer.
Hypothesis Hparsed : pdfParse buffer = Parsed extracted numpages.

Let pdfId := toString36 now.
Let stored :=
  {| id := pdfId; filename := originalname f; totalPages := numpages;
     totalChars := length (cleanText extracted);
     chunks := chunks_of_extracted extracted |}.

Lemma post_upload_success :
  post_upload pdfParse pdfStore now (Some f) w
  = (Uploaded pdfId (originalname f) numpages (length (chunks_of_extracted extracted))
       (length (cleanText extracted)) (estimatedMinutes_of (cleanText extracted)),
     <[pdfId := stored]> pdfStore,
     unlinkSync (upload_path f) w).
Proof. unfold post_upload. now rewrite Hfile, Hparsed. Qed.

Lemma uploaded_chunk i chunk :
  chunks_of_extracted extracted !! i = Some chunk ->
  get_chunk (<[pdfId := stored]> pdfStore) pdfId (Number_toString (Num (Z.of_nat i)))
  = ChunkResponse (Num (Z.of_nat i)) (Some chunk)
      (length (chunks_of_extracted extracted)).
Proof.
  intros Hi. rewrite (get_chunk_decimal _ _ stored) by apply lookup_insert_eq.
  pose proof (lookup_lt_Some _ _ _ Hi) as Hlt. cbn [chunks stored].
  destruct (Z.leb_spec 0 (Z.of_nat i)),
           (Z.ltb_spec (Z.of_nat i) (Z.of_nat (length (chunks_of_extracted extracted))));
    try lia.
  simpl. now rewrite Nat2Z.id, Hi.
Qed.
End Success.
End Upload.

(** X16. After a successful upload the document is in the table under
    the identifier of the answer, with the chunks of the normalized
    text, every chunk of it is what GET chunk returns for its index, the
    other documents are as before, and the uploaded file is removed
    while every other file stays. *)
Theorem upload_then_read `{Collaborators}
    (pdfParse : jsstring -> ParseOutcome) (pdfStore : gmap jsstring PDFData)
    (now : N) (w : World) (f : UploadedFile) (buffer extracted : jsstring) (numpages : N) :
  disk w !! upload_path f = Some buffer ->
  pdfParse buffer = Parsed extracted numpages ->
  let result := post_upload pdfParse pdfStore now (Some f) w in
  let pdfStore' := snd (fst result) in
  let pdfId := toString36 now in
  fst (fst result)
  = Uploaded pdfId (originalname f) numpages
      (length (splitIntoChunks (cleanText extracted) default_maxChars))
      (length (cleanText extracted)) (estimatedMinutes_of (cleanText extracted))
  /\ (forall i chunk,
        splitIntoChunks (cleanText extracted) default_maxChars !! i = Some chunk ->
        get_chunk pdfStore' pdfId (Number_toString (Num (Z.of_nat i)))
        = ChunkResponse (Num (Z.of_nat i)) (Some chunk)
            (length (splitIntoChunks (cleanText extracted) default_maxChars)))
  /\ (forall other, other <> pdfId -> pdfStore' !! other = pdfStore !! other)
  /\ disk (snd result) !! upload_path f = None
  /\ (forall path, path <> upload_path f -> disk (snd result) !! path = disk w !! path)
  /\ invocations (snd result) = invocations w.
Proof.
  intros Hfile Hparsed result pdfStore' pdfId. subst result pdfStore'.
  rewrite (post_upload_success pdfParse pdfStore now w f buffer extracted numpages
             Hfile Hparsed).
  cbn [fst snd]. split; [reflexivity|]. split.
  - intros i chunk Hi. now apply uploaded_chunk.
  - split; [intros other Hne; now apply lookup_insert_ne|].
    simpl. split; [apply lookup_delete_eq|].
    split; [intros path Hne; now apply lookup_delete_ne | reflexivity].
Qed.

(** X17. What GET [/api/pdf/:pdfId] reports for an uploaded document is
    consistent: one preview per chunk, numbered from 0, no preview
    longer than 103 code units, every chunk at least one code unit long,
    and the lengths of the chunks plus one separator between neighbours
    add up to [totalChars], the length of the normalized text. *)
Theorem uploaded_info_consistent
    (pdfParse : jsstring -> ParseOutcome) (pdfStore : gmap jsstring PDFData)
    (now : N) (w : World) (f : UploadedFile) (buffer extracted : jsstring) (numpages : N) :
  disk w !! upload_path f = Some buffer ->
  pdfParse buffer = Parsed extracted numpages ->
  exists previews,
    get_pdf (snd (fst (post_upload pdfParse pdfStore now (Some f) w))) (toString36 now)
    = Info (toString36 now) (originalname f) numpages (length previews)
        (length (cleanText extracted)) previews
    /\ sum_list (map chars previews) + (length previews - 1)
       = length (cleanText extracted)
    /\ (forall i p, previews !! i = Some p ->
          preview_index p = i /\ length (preview p) <= 103 /\ 1 <= chars p).
Proof.
  intros Hfile Hparsed.
  rewrite (post_upload_success pdfParse pdfStore now w f buffer extracted numpages
             Hfile Hparsed).
  cbn [fst snd]. unfold get_pdf. rewrite lookup_insert_eq. cbn [id filename totalPages
    totalChars chunks].
  match goal with |- context [Info _ _ _ _ _ ?l] => exists l end.
  rewrite length_imap. split; [reflexivity|]. split.
  - rewrite <- (chunks_of_extracted_join extracted), join_space_length.
    do 2 f_equal. generalize (chunks_of_extracted extracted). intros l.
    apply list_eq. intros i. change (map ?g ?x) with (g <$> x).
    rewrite !list_lookup_fmap, list_lookup_imap. now destruct (l !! i).
  - intros i p Hp. apply list_lookup_imap_Some in Hp as (chunk & Hchunk & ->). simpl.
    split; [reflexivity|]. split.
    + rewrite length_app, length_take. change (length (str "...")) with 3. lia.
    + pose proof (chunks_of_extracted_stored extracted) as Hall.
      rewrite Forall_forall in Hall.
      destruct (Hall chunk) as [Hne _]; [now apply list_elem_of_lookup_2 in Hchunk|].
      destruct chunk; [congruence | simpl; lia].
Qed.

(** X18. GET [/api/pdf/:pdfId/chunks] lists the chunks of an uploaded
    document in order, each with its index and its text, and counts at
    least one word in every chunk. *)
Theorem uploaded_chunks_have_words
    (pdfParse : jsstring -> ParseOutcome) (pdfStore : gmap jsstring PDFData)
    (now : N) (w : World) (f : UploadedFile) (buffer extracted : jsstring) (numpages : N) :
  disk w !! upload_path f = Some buffer ->
  pdfParse buffer = Parsed extracted numpages ->
  exists entries,
    get_chunks (snd (fst (post_upload pdfParse pdfStore now (Some f) w))) (toString36 now)
    = Chunks (toString36 now) (originalname f) entries
    /\ map words_text entries = splitIntoChunks (cleanText extracted) default_maxChars
    /\ (forall i e, entries !! i = Some e ->
          words_index e = i /\ wordCount e = wordCount_of (words_text e)
          /\ 1 <= wordCount e).
Proof.
  intros Hfile Hparsed.
  rewrite (post_upload_success pdfParse pdfStore now w f buffer extracted numpages
             Hfile Hparsed).
  cbn [fst snd]. unfold get_chunks. rewrite lookup_insert_eq.
  cbn [id filename chunks].
  match goal with |- context [Chunks _ _ ?l] => exists l end.
  split; [reflexivity|]. split.
  - fold (chunks_of_extracted extracted).
    generalize (chunks_of_extracted extracted). intros l.
    apply list_eq. intros i. change (map ?g ?x) with (g <$> x).
    rewrite list_lookup_fmap, list_lookup_imap. now destruct (l !! i).
  - intros i e He. apply list_lookup_imap_Some in He as (chunk & Hchunk & ->). simpl.
    split; [reflexivity|]. split; [reflexivity|].
    apply wordCount_solid, stored_chunk_solid.
    pose proof (chunks_of_extracted_stored extracted) as Hall.
    rewrite Forall_forall in Hall. apply Hall.
    now apply list_elem_of_lookup_2 in Hchunk.
Qed.

(** ** The path of the executable *)

Lemma first_existing_sound paths w path :
  first_existing paths w = Some path ->
  Some path ∈ paths /\ path <> [] /\ existsSync path w = true.
Proof.
  induction paths as [|p rest IH]; [discriminate|]. simpl.
  destruct p as [candidate|].
  - destruct (truthy candidate && existsSync candidate w) eqn:Hc.
    + intros [= <-]. apply andb_true_iff in Hc as [Ht He].
      split; [now left|]. split; [now apply truthy_nonempty | exact He].
    + intros Hrest. destruct (IH Hrest) as (? & ? & ?). split; [now right | now split].
  - intros Hrest. destruct (IH Hrest) as (? & ? & ?). split; [now right | now split].
Qed.

(** X19. [getEdgeTTSPath] never returns the empty string: it returns one
    of its candidates that names an existing file, or [edge-tts]; and a
    non-empty [EDGE_TTS_PATH] that names an existing file wins over every
    other candidate. *)
Theorem getEdgeTTSPath_choice (env_EDGE_TTS_PATH : option jsstring) (w : World) :
  getEdgeTTSPath env_EDGE_TTS_PATH w <> []
  /\ (getEdgeTTSPath env_EDGE_TTS_PATH w = str "edge-tts"
      \/ (Some (getEdgeTTSPath env_EDGE_TTS_PATH w) ∈ possiblePaths env_EDGE_TTS_PATH
          /\ existsSync (getEdgeTTSPath env_EDGE_TTS_PATH w) w = true))
  /\ (forall path,
        env_EDGE_TTS_PATH = Some path -> path <> [] -> existsSync path w = true ->
        getEdgeTTSPath env_EDGE_TTS_PATH w = path).
Proof.
  unfold getEdgeTTSPath.
  destruct (first_existing (possiblePaths env_EDGE_TTS_PATH) w) as [found|] eqn:Hfound.
  - destruct (first_existing_sound _ _ _ Hfound) as (Hin & Hne & Hex). simpl.
    split; [exact Hne|]. split; [right; now split|].
    intros path -> Hpath Hexists. simpl in Hfound.
    destruct path; [congruence|]. simpl in Hfound. rewrite Hexists in Hfound.
    congruence.
  - simpl. split; [discriminate|]. split; [now left|].
    intros path -> Hpath Hexists. simpl in Hfound.
    destruct path; [congruence|]. simpl in Hfound. rewrite Hexists in Hfound.
    discriminate.
Qed.

(** ** The further properties on concrete requests *)

Lemma get_chunk_range_witness :
  (exists text, chunks demo_pdf !! Z.to_nat 1 = Some text
     /\ get_chunk (H := demo_collaborators writing_tool) demo_store (str "abc")
          (Number_toString (Num 1))
        = ChunkResponse (Num 1) (Some text) (length (chunks demo_pdf)))
  /\ get_chunk (H := demo_collaborators writing_tool) demo_store (str "abc")
       (Number_toString (Num (-1)))
     = ErrorResponse 400 (str "Invalid chunk index")
  /\ get_chunk (H := demo_collaborators writing_tool) demo_store (str "abc")
       (Number_toString (Num 2))
     = ErrorResponse 400 (str "Invalid chunk index").
Proof.
  split; [|split].
  - apply (get_chunk_range (H := demo_collaborators writing_tool) demo_store
             (str "abc") demo_pdf 1); [evaluate | simpl; lia].
  - apply (get_chunk_range (H := demo_collaborators writing_tool) demo_store
             (str "abc") demo_pdf (-1)); [evaluate | simpl; lia].
  - apply (get_chunk_range (H := demo_collaborators writing_tool) demo_store
             (str "abc") demo_pdf 2); [evaluate | simpl; lia].
Defined.

Lemma progress_after_request_witness :
  get_progress (str "abc") (str "0")
    (snd (post_tts (H := demo_collaborators refusing_tool) demo_store 1700000000000
            (str "abc") (str "0") None None empty_world))
  = {| status := processing; progress := 50; message := str "Generating audio..." |}.
Proof.
  apply (progress_after_request (H := demo_collaborators refusing_tool) demo_store
           (str "abc") (str "0") demo_pdf 0 (str "Hello world. This is a test.")
           1700000000000 None None empty_world (Rejected (str "Command failed"))
           (<[str "/tmp/tts-1700000000000.txt" := str "Hello world. This is a test."]> ∅)).
  - evaluate.
  - evaluate.
  - reflexivity.
  - evaluate.
  - evaluate.
  - evaluate.
Defined.

Lemma post_upload_failure_frame_witness :
  snd (fst (post_upload demo_pdfParse demo_store 1700000000000 (Some demo_upload)
              (uploaded_world (str "not a pdf")))) = demo_store
  /\ snd (post_upload demo_pdfParse demo_store 1700000000000 (Some demo_upload)
            (uploaded_world (str "not a pdf"))) = uploaded_world (str "not a pdf")
  /\ 500%N = 500%N.
Proof.
  apply (post_upload_failure_frame demo_pdfParse demo_store 1700000000000
           (uploaded_world (str "not a pdf")) (Some demo_upload)
           500 (str "Invalid PDF structure")).
  evaluate.
Defined.

Lemma upload_then_read_witness :
  get_chunk (H := demo_collaborators writing_tool)
    (snd (fst (post_upload demo_pdfParse demo_store 1700000000000 (Some demo_upload)
                 (uploaded_world (str "%PDF-1.7")))))
    (toString36 1700000000000) (Number_toString (Num (Z.of_nat 0)))
  = ChunkResponse (Num (Z.of_nat 0))
      (Some (str "Hello world. This is a test. Another sentence here.")) 1.
Proof.
  destruct (upload_then_read (H := demo_collaborators writing_tool) demo_pdfParse
              demo_store 1700000000000 (uploaded_world (str "%PDF-1.7")) demo_upload
              (str "%PDF-1.7")
              ([72; 101; 108; 108; 111; 32; 119; 111; 114; 108; 100; 46; 10]%N
                 ++ str "This is a test.   Another sentence here.") 2)
    as (_ & Hread & _); [evaluate | evaluate |].
  exact (Hread 0 (str "Hello world. This is a test. Another sentence here.") eq_refl).
Defined.

Lemma uploaded_info_consistent_witness :
  exists previews,
    get_pdf (snd (fst (post_upload demo_pdfParse demo_store 1700000000000
                         (Some demo_upload) (uploaded_world (str "%PDF-1.7")))))
      (toString36 1700000000000)
    = Info (toString36 1700000000000) (str "book.pdf") 2 (length previews) 51 previews
    /\ sum_list (map chars previews) + (length previews - 1) = 51.
Proof.
  destruct (uploaded_info_consistent demo_pdfParse demo_store 1700000000000
              (uploaded_world (str "%PDF-1.7")) demo_upload (str "%PDF-1.7")
              ([72; 101; 108; 108; 111; 32; 119; 111; 114; 108; 100; 46; 10]%N
                 ++ str "This is a test.   Another sentence here.") 2)
    as (previews & Hinfo & Hsum & _); [evaluate | evaluate |].
  exists previews. split; [exact Hinfo | exact Hsum].
Defined.

Lemma uploaded_chunks_have_words_witness :
  exists entries,
    get_chunks (snd (fst (post_upload demo_pdfParse demo_store 1700000000000
                            (Some demo_upload) (uploaded_world (str "%PDF-1.7")))))
      (toString36 1700000000000)
    = Chunks (toString36 1700000000000) (str "book.pdf") entries
    /\ map words_text entries
       = [str "Hello world. This is a test. Another sentence here."].
Proof.
  destruct (uploaded_chunks_have_words demo_pdfParse demo_store 1700000000000
              (uploaded_world (str "%PDF-1.7")) demo_upload (str "%PDF-1.7")
              ([72; 101; 108; 108; 111; 32; 119; 111; 114; 108; 100; 46; 10]%N
                 ++ str "This is a test.   Another sentence here.") 2)
    as (entries & Hres & Htexts & _); [evaluate | evaluate |].
  exists entries. split; [exact Hres|]. rewrite Htexts. vm_compute. reflexivity.
Defined.

(** ** The normalizer and the chunker together *)

(** X20. Whatever text was extracted and whatever the bound, the chunks
    of the normalized text joined by single spaces are the normalized
    text: the table of an uploaded document holds all of its text. *)
Theorem normalized_chunks_reconstruct (extracted : jsstring) (maxChars : Z) :
  join_space (splitIntoChunks (cleanText extracted) maxChars) = cleanText extracted.
Proof. apply splitIntoChunks_join_normalized, cleanText_normalized. Qed.

Lemma drop_while_nil p s : drop_while p s = [] -> Forall (fun c => p c = true) s.
Proof.
  induction s as [|c r IH]; [constructor|]. simpl.
  destruct (p c) eqn:Hc; [|discriminate]. intros Hr. constructor; auto.
Qed.

Lemma take_while_Forall p s : Forall (fun c => p c = true) (take_while p s).
Proof.
  induction s as [|c r IH]; simpl; [constructor|].
  destruct (p c) eqn:Hc; now constructor.
Qed.

Lemma trimEnd_spaces a ws :
  Forall (fun c => Char.is_space c = true) ws -> trimEnd (a ++ ws) = trimEnd a.
Proof.
  intros Hws. revert a. induction Hws as [|c ws Hc _ IH]; intros a.
  - now rewrite app_nil_r.
  - replace (a ++ c :: ws) with ((a ++ [c]) ++ ws) by now rewrite <- app_assoc.
    rewrite IH. now apply trimEnd_snoc_space.
Qed.

Lemma trim_digits ds ws :
  ds <> [] ->
  Forall (fun c => Char.is_digit c = true) ds ->
  Forall (fun c => Char.is_space c = true) ws ->
  trim (ds ++ ws) = ds.
Proof.
  intros Hne Hds Hws. unfold trim.
  assert (Hstart : forall t, trimStart (ds ++ t) = ds ++ t).
  { intros t. destruct ds as [|d ds']; [congruence|]. inversion Hds; subst.
    simpl. now rewrite digit_not_space. }
  rewrite Hstart, trimEnd_spaces by exact Hws.
  clear Hstart Hws. induction Hds as [|d ds' Hd Hds' IH]; [congruence|].
  simpl. destruct ds' as [|d' ds''].
  - simpl. now rewrite digit_not_space.
  - now rewrite IH.
Qed.

Lemma removed_digit_line c :
  Forall (fun x => Char.is_line_terminator x = false) c ->
  c <> [] -> remove_digit_lines c = [] ->
  exists ds ws, c = ds ++ ws /\ ds <> []
    /\ Forall (fun x => Char.is_digit x = true) ds
    /\ Forall (fun x => Char.is_space x = true) ws.
Proof.
  intros Hlt Hne Hgone. destruct c as [|x r]; [congruence|].
  unfold remove_digit_lines in Hgone. cbn [remove_digit_lines_from at_line_start] in Hgone.
  destruct (digit_line_match (x :: r)) as [[|n]|] eqn:Hmatch; try discriminate Hgone.
  clear Hgone. unfold digit_line_match in Hmatch.
  set (ds := take_while Char.is_digit (x :: r)) in *.
  set (r1 := drop_while Char.is_digit (x :: r)) in *.
  assert (Hsplit : x :: r = ds ++ r1) by (symmetry; apply take_drop_while).
  destruct ds as [|d ds'] eqn:Hds; [discriminate|].
  destruct (drop_while Char.is_space r1) as [|y r2] eqn:Hr2.
  - exists (d :: ds'), r1. repeat split; [exact Hsplit | discriminate | |].
    + rewrite <- Hds. apply take_while_Forall.
    + now apply drop_while_nil.
  - rewrite last_terminator_none in Hmatch; [discriminate|].
    apply Forall_take_while. subst r1. now apply Forall_drop_while.
Qed.

(** X21. In [cleanText] the removal of digit lines acts on the whole
    text or not at all: the result is the collapsed text, trimmed,
    unless that is a run of digits, the only case in which the result
    can be empty instead. *)
Theorem cleanText_digit_pass (text : jsstring) :
  let collapsed :=
    collapse_spaces
      (replace_ellipsis
         (replace_pair 8211 8212 Char.hyphen
            (replace_pair 8220 8221 Char.quote
               (replace_pair 8216 8217 Char.apostrophe (remove_control text))))) in
  cleanText text = trim collapsed
  \/ (cleanText text = [] /\ trim collapsed <> []
      /\ forallb Char.is_digit (trim collapsed) = true).
Proof.
  intros collapsed. unfold cleanText. fold collapsed.
  destruct text as [|t0 text']; [left; reflexivity|]. cbn [truthy negb].
  assert (Hlt : Forall (fun x => Char.is_line_terminator x = false) collapsed)
    by (apply (single_spaced_no_terminator _ false), collapse_from_single_spaced).
  destruct (remove_digit_lines_one_line collapsed Hlt) as [-> | Hgone]; [now left|].
  rewrite Hgone. destruct collapsed as [|c0 c'] eqn:Hc; [now left|]. right.
  destruct (removed_digit_line (c0 :: c') Hlt ltac:(discriminate) Hgone)
    as (ds & ws & -> & Hne & Hds & Hws).
  rewrite (trim_digits ds ws Hne Hds Hws). repeat split; [exact Hne|].
  apply forallb_forall. intros d Hd. rewrite List.Forall_forall in Hds. now apply Hds.
Qed.
